(** * Finite Drinfeld modules: a shallow embedding of
      [sage/modules/finite_drinfeld_module.py]

    The Python module defines two classes, [FiniteDrinfeldModule] (a ring
    homomorphism from [Fq[X]] to the Ore polynomial ring [L{tau}], determined
    by the image of [X]) and [FiniteDrinfeldModuleAction] (the induced module
    law), and one helper, [_check_base_fields].

    Definitions come first:
    - exceptions;
    - the ambient field of prime characteristic [p] in which every field
      element lives (the source's [Fqbar]), its powers and Frobenius maps;
    - coefficient lists with the arithmetic of [Fq[X]] and of [L{tau}];
    - the Sage objects the source queries (rings, Frobenius endomorphisms,
      Ore polynomial rings and their elements), as records of what their
      methods return, the object store and the monad of methods;
    - the two classes and the helper, method by method;
    - a small instance over the field with four elements.

    The properties follow: the Frobenius map is additive (from the binomial
    theorem), evaluation of Ore polynomials turns products into composition,
    and then the properties of the specification, each marked with the
    identifier of its claim. *)

From Stdlib Require Import ZArith List String Bool Lia Ring Zdivisibility.
Import ListNotations.
Open Scope string_scope.
Open Scope list_scope.

(** ** Exceptions *)

(** The source raises [TypeError] and [ValueError].  [ReferenceError] is what
    reading an address outside the object store yields; no method of the
    source can produce such an address. *)
Inductive exn : Type :=
| TypeError (msg : string)
| ValueError (msg : string)
| ReferenceError (msg : string).

Inductive result (A : Type) : Type :=
| Ok (a : A)
| Raise (e : exn).
Arguments Ok {A} a.
Arguments Raise {A} e.

Definition is_TypeError {A} (r : result A) : bool :=
  match r with Raise (TypeError _) => true | _ => false end.

Definition is_ValueError {A} (r : result A) : bool :=
  match r with Raise (ValueError _) => true | _ => false end.

Definition is_Ok {A} (r : result A) : bool :=
  match r with Ok _ => true | _ => false end.

(** ** The ambient field *)

(** [n] copies of [x] added up. *)
Fixpoint nat_mul {A : Type} (add : A -> A -> A) (zero : A) (n : nat) (x : A) : A :=
  match n with
  | O => zero
  | S n' => add x (nat_mul add zero n' x)
  end.

(** A commutative ring of prime characteristic [Kchar] with decidable
    equality: the common overfield ([Fqbar] in the source's docstring, or any
    finite field large enough) whose elements are the field elements of the
    program.  Only the ring laws and the characteristic are used. *)
Record AmbientField : Type := {
  K :> Type;
  K0 : K;
  K1 : K;
  Kadd : K -> K -> K;
  Kmul : K -> K -> K;
  Kopp : K -> K;
  Keqb : K -> K -> bool;
  Kchar : nat;
  K_ring : ring_theory K0 K1 Kadd Kmul (fun x y => Kadd x (Kopp y)) Kopp eq;
  Keqb_eq : forall x y, Keqb x y = true <-> x = y;
  Kchar_prime : Z.prime (Z.of_nat Kchar);
  Kchar_zero : nat_mul Kadd K0 Kchar K1 = K0
}.

Declare Scope K_scope.
Delimit Scope K_scope with K.
Notation "0" := (K0 _) : K_scope.
Notation "1" := (K1 _) : K_scope.
Infix "+" := (Kadd _) : K_scope.
Infix "*" := (Kmul _) : K_scope.
Notation "- x" := (Kopp _ x) : K_scope.

(** ** Binomial coefficients *)

Fixpoint binom (n k : nat) : nat :=
  match n, k with
  | _, O => 1
  | O, S _ => 0
  | S n', S k' => binom n' k' + binom n' (S k')
  end.

(** ** Powers and the Frobenius map of the ambient field *)

Section AmbientDefinitions.

Variable F : AmbientField.
Local Open Scope K_scope.

Fixpoint Kpow (x : F) (n : nat) : F :=
  match n with
  | O => 1
  | S n' => x * Kpow x n'
  end.

(** The image of a natural number in the field. *)
Definition Knat (n : nat) : F := nat_mul (Kadd F) 0 n 1.

(** [homog c n x y] is the sum of [c k * x^k * y^(n-k)] for [k] from [0] to [n]. *)
Fixpoint homog (c : nat -> nat) (n : nat) (x y : F) : F :=
  match n with
  | O => Knat (c O)
  | S n' => Knat (c O) * Kpow y (S n') + x * homog (fun k => c (S k)) n' x y
  end.

(** The [n]-fold Frobenius [x |-> x^(p^n)], the only form of twisting
    morphism a finite field has. *)
Definition frobenius_pow (n : nat) (x : F) : F := Kpow x (Kchar F ^ n).

End AmbientDefinitions.

(** ** Coefficient lists *)

(** Polynomials of [Fq[X]] and Ore polynomials of [L{tau}] are lists of
    coefficients, lowest degree first, read up to trailing zeros. *)

Section CoefficientDefinitions.

Variable F : AmbientField.
Local Open Scope K_scope.

(** Modelled from the spec: the arithmetic of [Fq[X]] and of [L{tau}] is
    Sage's.  Addition is coefficient by coefficient in both rings. *)
Fixpoint coeffs_add (a b : list F) : list F :=
  match a, b with
  | [], _ => b
  | _, [] => a
  | x :: a', y :: b' => (x + y) :: coeffs_add a' b'
  end.

Definition coeffs_scale (c : F) (a : list F) : list F := map (Kmul F c) a.

(** Modelled from the spec: multiplication of the univariate polynomial ring
    [Fq[X]], where [X] commutes with the coefficients. *)
Fixpoint poly_mul (a b : list F) : list F :=
  match a with
  | [] => []
  | x :: a' => coeffs_add (coeffs_scale x b) (0 :: poly_mul a' b)
  end.

(** Modelled from the spec: the non-commutative multiplication of [L{tau}]
    twisted by the endomorphism [sigma], [tau * c = sigma c * tau].  So
    [(x + a' * tau) * b = x * b + (a' * sigma(b)) * tau], where [sigma] is
    applied to every coefficient of [b]. *)
Fixpoint skew_mul (sigma : F -> F) (a b : list F) : list F :=
  match a with
  | [] => []
  | x :: a' => coeffs_add (coeffs_scale x b) (0 :: skew_mul sigma a' (map sigma b))
  end.

Fixpoint skew_pow (sigma : F -> F) (a : list F) (n : nat) : list F :=
  match n with
  | O => [1]
  | S n' => skew_mul sigma a (skew_pow sigma a n')
  end.

(** Modelled from the spec: the image of [sum c_j X^j] under [X |-> gen] is
    [sum c_j * gen^j].  [im_gens_sum_from sigma gen i g] is the sum of
    [c_j * gen^(i+j)] over the coefficients [c_j] of [g], in the ring twisted
    by [sigma]; a coefficient [c] enters as the constant [[c]]. *)
Fixpoint im_gens_sum_from (sigma : F -> F) (gen : list F) (i : nat) (g : list F)
  : list F :=
  match g with
  | [] => []
  | c :: g' =>
      coeffs_add (skew_mul sigma [c] (skew_pow sigma gen i))
                 (im_gens_sum_from sigma gen (S i) g')
  end.

(** Modelled from the spec: a skew polynomial acts on a field element through
    the iterates of the twist.  [operator_eval_from T i a x] is the sum of
    [a_j * T^(i+j) x] over the coefficients [a_j] of [a]. *)
Fixpoint operator_eval_from (T : F -> F) (i : nat) (a : list F) (x : F) : F :=
  match a with
  | [] => 0
  | c :: a' => c * Nat.iter i T x + operator_eval_from T (S i) a' x
  end.

Definition operator_eval (T : F -> F) (a : list F) (x : F) : F :=
  operator_eval_from T O a x.

(** The sum of [a_j * x^(q^(i+j))] over the coefficients [a_j] of [a]. *)
Fixpoint power_sum_from (q : nat) (i : nat) (a : list F) (x : F) : F :=
  match a with
  | [] => 0
  | c :: a' => c * Kpow F x (q ^ i) + power_sum_from q (S i) a' x
  end.

(** Trailing zeros removed. *)
Fixpoint normalize (a : list F) : list F :=
  match a with
  | [] => []
  | c :: a' =>
      match normalize a' with
      | [] => if Keqb F c 0 then [] else [c]
      | r => c :: r
      end
  end.

(** The degree of a coefficient list; [-1] for the zero polynomial. *)
Definition coeffs_degree (a : list F) : Z := Z.of_nat (List.length (normalize a)) - 1.

End CoefficientDefinitions.

(** ** The Sage objects the source queries *)

(** A ring object, as what its methods [is_field()], [is_finite()] and
    [degree()] return.  Every ring of the model has the characteristic of the
    ambient field and is compared with the others inside it. *)
Record Ring : Type := {
  is_field : bool;
  is_finite : bool;
  degree : Z
}.

(** Modelled from the spec: Sage's [is_subring] is not part of the source
    file.  The spec gives a finite field a characteristic and a degree, and a
    reflexive and transitive relation "is a finite-field extension of"; inside
    one ambient field of characteristic [p] that relation is divisibility of
    the degrees. *)
Definition is_subring (A B : Ring) : bool :=
  (degree B mod degree A =? 0)%Z.

(** Modelled from the spec: the twist of a skew polynomial ring over a finite
    field is a Frobenius endomorphism, known by its iteration power. *)
Record FrobeniusEndomorphism : Type := {
  frobenius_domain : Ring;
  power : Z
}.

(** Modelled from the spec: [R.frobenius_endomorphism(n)] has the twist power
    [n] it is given. *)
Definition frobenius_endomorphism (R : Ring) (n : Z) : FrobeniusEndomorphism :=
  {| frobenius_domain := R; power := n |}.

(** A derivation of an Ore polynomial ring; the source only tests its
    presence. *)
Inductive Derivation : Type :=
| derivation (description : string).

Module PolynomialRing.

(** The first argument of the constructor: any parent exposing
    [base_ring()] and [ngens()], its number of generators.
    [is_dense_finite_field] is what
    [isinstance(polring, PolynomialRing_dense_finite_field)] returns. *)
Record t : Type := {
  is_dense_finite_field : bool;
  base_ring : Ring;
  ngens : Z
}.

End PolynomialRing.

Module OrePolynomialRing.

Record t : Type := {
  base_ring : Ring;
  twisting_morphism : FrobeniusEndomorphism;
  twisting_derivation : option Derivation;
  variable_names : string
}.

(** [OrePolynomialRing(R, frobenius, names=...)]: no derivation is given. *)
Definition make (R : Ring) (frobenius : FrobeniusEndomorphism) (names : string) : t :=
  {| base_ring := R;
     twisting_morphism := frobenius;
     twisting_derivation := None;
     variable_names := names |}.

End OrePolynomialRing.

Definition is_None {A : Type} (o : option A) : bool :=
  match o with None => true | Some _ => false end.

(** The number of elements of a finite field of the given degree. *)
Definition cardinality (p : nat) (R : Ring) : nat := p ^ Z.to_nat (degree R).

Section SageElements.

Variable F : AmbientField.

(** An element of the ambient field belongs to the finite field [R] when the
    [degree R]-fold Frobenius fixes it, that is [x^|R| = x]. *)
Definition in_ring (R : Ring) (x : F) : Prop :=
  frobenius_pow F (Z.to_nat (degree R)) x = x.

(** A polynomial belongs to [polring] when its coefficients are in the base
    ring. *)
Definition in_polring (polring : PolynomialRing.t) (g : list F) : Prop :=
  Forall (in_ring (PolynomialRing.base_ring polring)) g.

(** The map [x |-> x^(p^power)] of the twisting morphism. *)
Definition twist (Ltau : OrePolynomialRing.t) : F -> F :=
  frobenius_pow F (Z.to_nat (power (OrePolynomialRing.twisting_morphism Ltau))).

(** An Ore polynomial: its parent ring and its coefficients. *)
Record OrePolynomial : Type := {
  parent : OrePolynomialRing.t;
  coefficients : list F
}.

(** Modelled from the spec: the degree in [tau] of a skew polynomial. *)
Definition OrePolynomial_degree (f : OrePolynomial) : Z :=
  coeffs_degree F (coefficients f).

(** Modelled from the spec: a generator that is not constant has degree at
    least 1 in [tau]; the constants are the elements of degree at most 0. *)
Definition is_constant (f : OrePolynomial) : bool :=
  (OrePolynomial_degree f <=? 0)%Z.

(** Modelled from the spec: a skew polynomial [sum a_i tau^i] evaluated at [x]
    is the sum of [a_i] times the [i]-fold twist of [x].  The element is
    taken in the ambient field; that it belongs to the base field of the
    parent, which Sage requires of the argument, is a precondition, stated
    with [in_ring] where a property depends on it. *)
Definition OrePolynomial_call (f : OrePolynomial) (x : F) : F :=
  operator_eval F (twist (parent f)) (coefficients f) x.

(** Modelled from the spec: [new_ore_polring(gen)] re-embeds the coefficients
    of [gen] in the new base field, which is the identity inside the ambient
    field. *)
Definition OrePolynomialRing_call (Ltau : OrePolynomialRing.t) (f : OrePolynomial)
  : OrePolynomial :=
  {| parent := Ltau; coefficients := coefficients f |}.

(** The state of a [FiniteDrinfeldModule] object, held by its base class
    [RingHomomorphism_im_gens]: the two ends of the homset and the images of
    the generators. *)
Record RingHomomorphism_im_gens : Type := {
  _domain : PolynomialRing.t;
  _codomain : OrePolynomialRing.t;
  _im_gens : list OrePolynomial
}.

(** Objects of class [FiniteDrinfeldModule] live in a store and are known by
    their address. *)
Definition ref : Type := nat.
Definition heap : Type := list RingHomomorphism_im_gens.

(** The Python values passed where the source tests a class. *)
Inductive object : Type :=
| Obj_OrePolynomial (f : OrePolynomial)
| Obj_FiniteDrinfeldModule (self : ref)
| Obj_Ring (R : Ring)
| Obj_int (n : Z)
| Obj_str (s : string)
| Obj_None.

(** ** The monad of methods: state and exceptions *)

Definition M (A : Type) : Type := heap -> result A * heap.

Definition ret {A} (a : A) : M A := fun h => (Ok a, h).

Definition raise {A} (e : exn) : M A := fun h => (Raise e, h).

Definition bind {A B} (c : M A) (k : A -> M B) : M B :=
  fun h =>
    match c h with
    | (Ok a, h') => k a h'
    | (Raise e, h') => (Raise e, h')
    end.

Definition read (self : ref) : M RingHomomorphism_im_gens :=
  fun h =>
    match nth_error h self with
    | Some m => (Ok m, h)
    | None => (Raise (ReferenceError "no object at this address"), h)
    end.

Definition alloc (m : RingHomomorphism_im_gens) : M ref :=
  fun h => (Ok (List.length h), h ++ [m]).

End SageElements.

Arguments ret {F A} a.
Arguments raise {F A} e.
Arguments bind {F A B} c k.
Arguments read {F} self.
Arguments alloc {F} m.
Arguments parent {F} _.
Arguments coefficients {F} _.
Arguments _domain {F} _.
Arguments _codomain {F} _.
Arguments _im_gens {F} _.
Arguments Obj_OrePolynomial {F} f.
Arguments Obj_FiniteDrinfeldModule {F} self.
Arguments Obj_Ring {F} R.
Arguments Obj_int {F} n.
Arguments Obj_str {F} s.
Arguments Obj_None {F}.
Arguments OrePolynomial_degree {F} f.
Arguments is_constant {F} f.
Arguments OrePolynomial_call {F} f x.
Arguments OrePolynomialRing_call {F} Ltau f.
Arguments in_ring {F} R x.
Arguments in_polring {F} polring g.

Notation "x <- c ;; k" := (bind c (fun x => k))
  (at level 61, c at next level, right associativity).
Notation "c ;; k" := (bind c (fun _ => k))
  (at level 61, right associativity).

(** ** The source, method by method *)

Section FiniteDrinfeldModule.

Variable F : AmbientField.

Local Abbreviation OrePolynomial := (OrePolynomial F).
Local Abbreviation object := (object F).
Local Abbreviation M := (M F).

(** [_check_base_fields(Fq, L)] *)
Definition _check_base_fields (Fq L : Ring) : M unit :=
  if negb (is_field L && is_finite L && is_subring Fq L) then
    raise (ValueError "The base field of the Ore polynomial ring must be a finite field extension of the base field of the polynomial ring")
  else ret tt.

(** *** Class [FiniteDrinfeldModule] *)

(** Methods inherited from [RingHomomorphism_im_gens]: they read the state of
    [self]. *)
Definition domain (self : ref) : M PolynomialRing.t :=
  m <- read self ;; ret (_domain m).

Definition codomain (self : ref) : M OrePolynomialRing.t :=
  m <- read self ;; ret (_codomain m).

Definition im_gens (self : ref) : M (list OrePolynomial) :=
  m <- read self ;; ret (_im_gens m).

(** [Hom(FqX, Ltau)] *)
Definition Hom (X : PolynomialRing.t) (Y : OrePolynomialRing.t)
  : PolynomialRing.t * OrePolynomialRing.t := (X, Y).

(** Modelled from the spec: [super().__init__(Hom(FqX, Ltau), gen)] is the
    initialiser of Sage's [RingHomomorphism_im_gens], which is not part of the
    source file.  The map of the spec is determined by one image, that of the
    one indeterminate of a univariate polynomial ring: the initialiser makes
    the list of images [[gen]] and refuses it, with a [ValueError], when its
    length is not the number of generators of the domain; otherwise the
    object receives its state.  The class call allocates the object and the
    initialiser of the source touches it in this last statement only, so the
    allocation is placed here. *)
Definition RingHomomorphism_im_gens__init__
  (homset : PolynomialRing.t * OrePolynomialRing.t) (gen : OrePolynomial) : M ref :=
  let im_gens := [gen] in
  if negb (Z.of_nat (List.length im_gens) =? PolynomialRing.ngens (fst homset))%Z then
    raise (ValueError "number of images must equal number of generators")
  else
    alloc {| _domain := fst homset; _codomain := snd homset; _im_gens := im_gens |}.

(** [FiniteDrinfeldModule(polring, gen)] *)
Definition FiniteDrinfeldModule__init__ (polring : PolynomialRing.t) (gen : object)
  : M ref :=
  let _ := PolynomialRing.is_dense_finite_field polring in
  match gen with
  | Obj_OrePolynomial gen =>
      let FqX := polring in
      let Ltau := parent gen in
      let Fq := PolynomialRing.base_ring FqX in
      let L := OrePolynomialRing.base_ring Ltau in
      _check_base_fields Fq L ;;
      if negb (is_None (OrePolynomialRing.twisting_derivation Ltau)) then
        raise (ValueError "The Ore polynomial ring should have no derivation")
      else if negb (power (OrePolynomialRing.twisting_morphism Ltau) =? degree Fq)%Z then
        raise (ValueError "The twisting morphism of the Ore polynomial ring must be the Frobenius endomorphism of the base field of the polynomial ring")
      else if is_constant gen then
        raise (ValueError "The generator must not be constant")
      else
        RingHomomorphism_im_gens__init__ (Hom FqX Ltau) gen
  | _ => raise (TypeError "The generator must be an Ore polynomial")
  end.

(** Getters *)

Definition ore_polring (self : ref) : M OrePolynomialRing.t := codomain self.

Definition polring (self : ref) : M PolynomialRing.t := domain self.

Definition frobenius (self : ref) : M FrobeniusEndomorphism :=
  Ltau <- ore_polring self ;; ret (OrePolynomialRing.twisting_morphism Ltau).

(** [[gen] = self.im_gens()] unpacks a list of length one. *)
Definition gen (self : ref) : M OrePolynomial :=
  l <- im_gens self ;;
  match l with
  | [gen] => ret gen
  | [] => raise (ValueError "not enough values to unpack (expected 1, got 0)")
  | _ => raise (ValueError "too many values to unpack (expected 1)")
  end.

(** Methods *)

Definition rank (self : ref) : M Z :=
  g <- gen self ;; ret (OrePolynomial_degree g).

Definition change_ring (self : ref) (R : Ring) : M ref :=
  if negb (is_field R) && is_finite R then
    raise (TypeError "Argument must be a finite field")
  else
    Ltau <- ore_polring self ;;
    if negb (is_subring (OrePolynomialRing.base_ring Ltau) R) then
      raise (ValueError "The new field must be a finite field extension of the base field of the Ore polynomial ring.")
    else
      FqX <- polring self ;;
      _check_base_fields (PolynomialRing.base_ring FqX) R ;;
      frob <- frobenius self ;;
      let new_frobenius := frobenius_endomorphism R (power frob) in
      Ltau' <- ore_polring self ;;
      let new_ore_polring :=
        OrePolynomialRing.make R new_frobenius (OrePolynomialRing.variable_names Ltau') in
      FqX' <- polring self ;;
      g <- gen self ;;
      FiniteDrinfeldModule__init__ FqX'
        (Obj_OrePolynomial (OrePolynomialRing_call new_ore_polring g)).

(** Modelled from the spec: applying the module to a polynomial
    [a = sum c_i X^i] gives [sum c_i * gen^i], computed with the twisted
    addition and multiplication of the codomain. *)
Definition FiniteDrinfeldModule_call (self : ref) (a : list F) : M OrePolynomial :=
  Ltau <- codomain self ;;
  g <- gen self ;;
  ret {| parent := Ltau;
         coefficients := im_gens_sum_from F (twist F Ltau) (coefficients g) O a |}.

(** *** Class [FiniteDrinfeldModuleAction] *)

(** The state of an action: the module it comes from, and the two arguments
    handed to the initialiser of the base class [Action], the acting ring [G]
    and the set [US] acted upon. *)
Record FiniteDrinfeldModuleAction : Type := {
  __finite_drinfeld_module : ref;
  G : PolynomialRing.t;
  US : Ring
}.

Definition FiniteDrinfeldModuleAction__init__ (finite_drinfeld_module : object)
  : M FiniteDrinfeldModuleAction :=
  match finite_drinfeld_module with
  | Obj_FiniteDrinfeldModule finite_drinfeld_module =>
      P <- polring finite_drinfeld_module ;;
      Ltau <- ore_polring finite_drinfeld_module ;;
      ret {| __finite_drinfeld_module := finite_drinfeld_module;
             G := P;
             US := OrePolynomialRing.base_ring Ltau |}
  | _ => raise (TypeError "First argument must be a FiniteDrinfeldModule")
  end.

Definition finite_drinfeld_module (self : FiniteDrinfeldModuleAction) : M ref :=
  ret (__finite_drinfeld_module self).

Definition _act_ (self : FiniteDrinfeldModuleAction) (g : list F) (x : F) : M F :=
  phi <- finite_drinfeld_module self ;;
  f <- FiniteDrinfeldModule_call phi g ;;
  ret (OrePolynomial_call f x).

(** [FiniteDrinfeldModule._get_action_] *)
Definition _get_action_ (self : ref) : M FiniteDrinfeldModuleAction :=
  FiniteDrinfeldModuleAction__init__ (Obj_FiniteDrinfeldModule self).

End FiniteDrinfeldModule.

Arguments _check_base_fields {F} Fq L.
Arguments domain {F} self.
Arguments codomain {F} self.
Arguments im_gens {F} self.
Arguments RingHomomorphism_im_gens__init__ {F} homset gen.
Arguments FiniteDrinfeldModule__init__ {F} polring gen.
Arguments ore_polring {F} self.
Arguments polring {F} self.
Arguments frobenius {F} self.
Arguments gen {F} self.
Arguments rank {F} self.
Arguments change_ring {F} self R.
Arguments FiniteDrinfeldModule_call {F} self a.
Arguments FiniteDrinfeldModuleAction__init__ {F} finite_drinfeld_module.
Arguments finite_drinfeld_module {F} self.
Arguments _act_ {F} self g x.
Arguments _get_action_ {F} self.

(** ** Validated objects *)

(** The field compatibility tested by [_check_base_fields]. *)
Definition compatible (Fq L : Ring) : bool :=
  is_field L && is_finite L && is_subring Fq L.

Arguments compatible Fq L : simpl never.

Section ValidatedObjects.

Variable F : AmbientField.

Implicit Types (h : heap F) (self : ref) (m : RingHomomorphism_im_gens F).

(** The state of an object that went through every check of the
    initialiser and of the initialiser of its base class. *)
Definition validated m : Prop :=
  exists f,
    _im_gens m = [f] /\
    _codomain m = parent f /\
    compatible (PolynomialRing.base_ring (_domain m))
               (OrePolynomialRing.base_ring (_codomain m)) = true /\
    OrePolynomialRing.twisting_derivation (_codomain m) = None /\
    power (OrePolynomialRing.twisting_morphism (_codomain m))
      = degree (PolynomialRing.base_ring (_domain m)) /\
    is_constant f = false /\
    PolynomialRing.ngens (_domain m) = 1%Z.

(** [self] is a validly constructed module of the store [h]: a call of the
    class returned it, and the store has only grown since. *)
Definition constructed h self : Prop :=
  exists polring gen h0 h1 ext,
    FiniteDrinfeldModule__init__ polring gen h0 = (Ok self, h1) /\ h = h1 ++ ext.

(** The Ore polynomial ring and the generator that [change_ring] builds. *)
Definition new_ore_polring (m : RingHomomorphism_im_gens F) (R : Ring)
  : OrePolynomialRing.t :=
  OrePolynomialRing.make R
    (frobenius_endomorphism R
       (power (OrePolynomialRing.twisting_morphism (_codomain m))))
    (OrePolynomialRing.variable_names (_codomain m)).

Definition new_gen (m : RingHomomorphism_im_gens F) (R : Ring) (f : OrePolynomial F)
  : OrePolynomial F :=
  OrePolynomialRing_call (new_ore_polring m R) f.

End ValidatedObjects.

Arguments validated {F} m.
Arguments constructed {F} h self.
Arguments new_ore_polring {F} m R.
Arguments new_gen {F} m R f.

(** ** The field with four elements *)

(** [F2[w]/(w^2+w+1)]: the pair [(a, b)] is [a + b*w]. *)
Module GF4.

Definition t : Type := (bool * bool)%type.

Definition zero : t := (false, false).
Definition one : t := (true, false).
Definition w : t := (false, true).

Definition add (x y : t) : t := (xorb (fst x) (fst y), xorb (snd x) (snd y)).

Definition mul (x y : t) : t :=
  let '(a, b) := x in
  let '(c, d) := y in
  (xorb (a && c) (b && d), xorb (xorb (a && d) (b && c)) (b && d)).

Definition opp (x : t) : t := x.

Definition eqb (x y : t) : bool :=
  Bool.eqb (fst x) (fst y) && Bool.eqb (snd x) (snd y).

Lemma ring_laws : ring_theory zero one add mul (fun x y => add x (opp y)) opp eq.
Proof.
  constructor;
    try (intros [[] []]); try (intros [[] []]); try (intros [[] []]); reflexivity.
Qed.

Lemma eqb_eq (x y : t) : eqb x y = true <-> x = y.
Proof.
  destruct x as [[] []], y as [[] []]; cbn; split; congruence.
Qed.

Lemma char_zero : nat_mul add zero 2 one = zero.
Proof. reflexivity. Qed.

Definition field : AmbientField :=
  {| K := t; K0 := zero; K1 := one; Kadd := add; Kmul := mul; Kopp := opp;
     Keqb := eqb; Kchar := 2;
     K_ring := ring_laws; Keqb_eq := eqb_eq;
     Kchar_prime := Z.prime_2; Kchar_zero := char_zero |}.

End GF4.

(** ** A small instance: [Fq = GF(2)], [L = GF(4)], [gen = tau + w] *)

Module Example.

Definition Fq : Ring := {| is_field := true; is_finite := true; degree := 1 |}.
Definition L : Ring := {| is_field := true; is_finite := true; degree := 2 |}.

(** The field with 16 elements, an extension of [L]; the field with 8
    elements, which does not contain [L]. *)
Definition GF16 : Ring := {| is_field := true; is_finite := true; degree := 4 |}.
Definition GF8 : Ring := {| is_field := true; is_finite := true; degree := 3 |}.

(** Two infinite rings that contain [L]: the field of rational functions
    [L(u)], and the polynomial ring [L[u]], which is not a field. *)
Definition rational_functions : Ring :=
  {| is_field := true; is_finite := false; degree := 2 |}.
Definition polynomials : Ring :=
  {| is_field := false; is_finite := false; degree := 2 |}.

(** A finite ring that is not a field, such as [L[u]/(u^2)]. *)
Definition dual_numbers : Ring :=
  {| is_field := false; is_finite := true; degree := 2 |}.

Definition FqX : PolynomialRing.t :=
  {| PolynomialRing.is_dense_finite_field := true;
     PolynomialRing.base_ring := Fq;
     PolynomialRing.ngens := 1 |}.


Definition Ltau : OrePolynomialRing.t :=
  OrePolynomialRing.make L (frobenius_endomorphism L 1) "t".

(** [phi_X = w + t] *)
Definition phi_X : OrePolynomial GF4.field :=
  Build_OrePolynomial GF4.field Ltau [GF4.w; GF4.one].

(** The store after [phi = FiniteDrinfeldModule(FqX, phi_X)], and [phi]. *)
Definition store : heap GF4.field :=
  snd (FiniteDrinfeldModule__init__ FqX (Obj_OrePolynomial phi_X) []).

Definition phi : ref := 0.

End Example.

(** * Properties *)

(** ** Binomial coefficients and the characteristic *)

Lemma binom_overflow (n k : nat) : n < k -> binom n k = 0.
Proof.
  revert k; induction n as [|n IH]; intros [|k] H; simpl; try lia.
  rewrite !IH by lia. reflexivity.
Qed.

Lemma binom_diag (n : nat) : binom n n = 1.
Proof.
  induction n as [|n IH]; simpl; [reflexivity|].
  rewrite IH, binom_overflow by lia. lia.
Qed.

Lemma binom_fact (m k : nat) : binom (m + k) k * (fact m * fact k) = fact (m + k).
Proof.
  revert k; induction m as [|m IHm]; intro k.
  - simpl. rewrite binom_diag. lia.
  - induction k as [|k IHk].
    + rewrite Nat.add_0_r. destruct m; simpl; lia.
    + replace (S m + S k) with (S (S m + k)) by lia.
      change (binom (S (S m + k)) (S k))
        with (binom (S m + k) k + binom (S m + k) (S k)).
      specialize (IHm (S k)).
      replace (S m + k) with (m + S k) in * by lia.
      replace (fact (S (m + S k))) with (S (m + S k) * fact (m + S k))
        by reflexivity.
      change (fact (S m)) with (S m * fact m) in *.
      change (fact (S k)) with (S k * fact k) in *.
      nia.
Qed.

Lemma prime_not_divide_fact (p : Z) (j : nat) :
  Z.prime p -> (Z.of_nat j < p)%Z -> ~ (p | Z.of_nat (fact j))%Z.
Proof.
  intros Hp; induction j as [|j IH]; intros Hj Hd.
  - simpl in Hd. apply Z.divide_1_r in Hd. pose proof (Z.prime_ge_2 _ Hp). lia.
  - change (fact (S j)) with (S j * fact j) in Hd.
    rewrite Nat2Z.inj_mul in Hd.
    apply (Z.divide_prime_mul _ _ _ Hp) in Hd. destruct Hd as [Hd|Hd].
    + apply Z.divide_pos_le in Hd; lia.
    + apply IH; [lia | exact Hd].
Qed.

Lemma prime_divide_binom (p k : nat) :
  Z.prime (Z.of_nat p) -> 0 < k < p -> exists c, binom p k = p * c.
Proof.
  intros Hp Hk.
  pose proof (binom_fact (p - k) k) as E.
  replace (p - k + k) with p in E by lia.
  assert (Hd : (Z.of_nat p | Z.of_nat (binom p k))%Z).
  { assert (Hf : (Z.of_nat p | Z.of_nat (fact p))%Z).
    { destruct p as [|p']; [lia|].
      change (fact (S p')) with (S p' * fact p').
      rewrite Nat2Z.inj_mul. apply Z.divide_factor_l. }
    rewrite <- E, !Nat2Z.inj_mul in Hf.
    apply (Z.divide_prime_mul _ _ _ Hp) in Hf. destruct Hf as [Hf|Hf]; [exact Hf|].
    apply (Z.divide_prime_mul _ _ _ Hp) in Hf. destruct Hf as [Hf|Hf].
    - exfalso. revert Hf. apply prime_not_divide_fact; [exact Hp | lia].
    - exfalso. revert Hf. apply prime_not_divide_fact; [exact Hp | lia]. }
  destruct Hd as [c Hc].
  exists (Z.to_nat c).
  apply Nat2Z.inj. rewrite Nat2Z.inj_mul, Z2Nat.id; [lia | nia].
Qed.

Section AmbientAlgebra.

Variable F : AmbientField.
Local Open Scope K_scope.

Add Ring AmbientRing : (K_ring F).

Lemma Kpow_add (x : F) (a b : nat) : Kpow F x (a + b) = Kpow F x a * Kpow F x b.
Proof. induction a as [|a IH]; simpl; [|rewrite IH]; ring. Qed.

Lemma Kpow_one (n : nat) : Kpow F 1 n = 1.
Proof. induction n as [|n IH]; simpl; [|rewrite IH]; ring. Qed.

Lemma Kpow_mul_base (x y : F) (n : nat) : Kpow F (x * y) n = Kpow F x n * Kpow F y n.
Proof. induction n as [|n IH]; simpl; [|rewrite IH]; ring. Qed.

Lemma Kpow_mul (x : F) (a b : nat) : Kpow F x (a * b) = Kpow F (Kpow F x a) b.
Proof.
  induction b as [|b IH].
  - rewrite Nat.mul_0_r. reflexivity.
  - rewrite Nat.mul_succ_r, Nat.add_comm, Kpow_add, IH. reflexivity.
Qed.

Lemma Knat_add (a b : nat) : Knat F (a + b) = Knat F a + Knat F b.
Proof. unfold Knat; induction a as [|a IH]; simpl; [|rewrite IH]; ring. Qed.

Lemma Knat_mul (a b : nat) : Knat F (a * b) = Knat F a * Knat F b.
Proof.
  induction a as [|a IH]; simpl.
  - unfold Knat; simpl; ring.
  - rewrite Knat_add, IH.
    change (Knat F (S a)) with (1 + Knat F a). ring.
Qed.

Lemma Knat_char_multiple (c : nat) : Knat F (Kchar F * c) = 0.
Proof.
  rewrite Knat_mul. unfold Knat at 1. rewrite (Kchar_zero F). ring.
Qed.

Lemma Knat_0 : Knat F 0 = 0.
Proof. reflexivity. Qed.

Lemma Knat_1 : Knat F 1 = 1.
Proof. unfold Knat; simpl; ring. Qed.

Lemma homog_S (c : nat -> nat) (n : nat) (x y : F) :
  homog F c (S n) x y
  = Knat F (c O) * Kpow F y (S n) + x * homog F (fun k => c (S k)) n x y.
Proof. reflexivity. Qed.

Lemma homog_ext (a b : nat -> nat) (n : nat) (x y : F) :
  (forall k, k <= n -> Knat F (a k) = Knat F (b k)) ->
  homog F a n x y = homog F b n x y.
Proof.
  revert a b; induction n as [|n IH]; intros a b H.
  - apply H; lia.
  - rewrite !homog_S, (H O) by lia.
    rewrite (IH (fun k => a (S k)) (fun k => b (S k))); [reflexivity|].
    intros k Hk; apply H; lia.
Qed.

Lemma homog_add (a b : nat -> nat) (n : nat) (x y : F) :
  homog F (fun k => (a k + b k)%nat) n x y = homog F a n x y + homog F b n x y.
Proof.
  revert a b; induction n as [|n IH]; intros a b.
  - apply Knat_add.
  - rewrite !homog_S, Knat_add, (IH (fun k => a (S k)) (fun k => b (S k))). ring.
Qed.

Lemma homog_shift (c : nat -> nat) (n : nat) (x y : F) :
  homog F (fun k => match k with O => O | S j => c j end) (S n) x y
  = x * homog F c n x y.
Proof.
  rewrite homog_S, Knat_0.
  change (homog F (fun k => c k) n x y) with (homog F c n x y). ring.
Qed.

Lemma homog_extend (c : nat -> nat) (n : nat) (x y : F) :
  c (S n) = O -> homog F c (S n) x y = y * homog F c n x y.
Proof.
  revert c; induction n as [|n IH]; intros c H.
  - rewrite homog_S. cbn [homog]. rewrite H, Knat_0. cbn [Kpow]. ring.
  - rewrite (homog_S c (S n)), (IH (fun k => c (S k)) H), (homog_S c n).
    cbn [Kpow]. ring.
Qed.

(** The binomial theorem. *)
Lemma binomial_theorem (n : nat) (x y : F) :
  Kpow F (x + y) n = homog F (binom n) n x y.
Proof.
  induction n as [|n IH].
  - cbn [Kpow homog binom]. rewrite Knat_1. reflexivity.
  - rewrite (homog_ext (binom (S n))
               (fun k => (match k with O => O | S j => binom n j end + binom n k)%nat)).
    + rewrite (homog_add (fun k => match k with O => O | S j => binom n j end)
                 (binom n)).
      rewrite homog_shift, homog_extend by (apply binom_overflow; lia).
      cbn [Kpow]. rewrite IH. ring.
    + intros [|k] _; simpl; [destruct n|]; reflexivity.
Qed.

Lemma homog_last (n : nat) (x y : F) :
  homog F (fun k => if Nat.eqb k n then 1%nat else 0%nat) n x y = Kpow F x n.
Proof.
  induction n as [|n IH].
  - cbn [homog Kpow Nat.eqb]. apply Knat_1.
  - rewrite homog_S. cbn [Nat.eqb]. rewrite IH, Knat_0. cbn [Kpow]. ring.
Qed.

(** In characteristic [p], raising to the power [p] is additive. *)
Lemma Kpow_char_add (x y : F) :
  Kpow F (x + y) (Kchar F) = Kpow F x (Kchar F) + Kpow F y (Kchar F).
Proof.
  pose proof (Kchar_prime F) as Hp.
  pose proof (Z.prime_ge_2 _ Hp) as Hge.
  pose proof (Knat_char_multiple) as Hchar.
  destruct (Kchar F) as [|p']; [lia|].
  rewrite binomial_theorem, homog_S.
  rewrite (homog_ext (fun k => binom (S p') (S k))
             (fun k => if Nat.eqb k p' then 1%nat else 0%nat)).
  - rewrite homog_last. cbn [binom]. rewrite Knat_1. cbn [Kpow]. ring.
  - intros k Hk. destruct (Nat.eqb_spec k p') as [->|Hne].
    + rewrite binom_diag. reflexivity.
    + destruct (prime_divide_binom (S p') (S k) Hp) as [c Hc]; [lia|].
      rewrite Hc, Hchar. reflexivity.
Qed.

Lemma frobenius_pow_add (n : nat) (x y : F) :
  frobenius_pow F n (x + y) = frobenius_pow F n x + frobenius_pow F n y.
Proof.
  unfold frobenius_pow. induction n as [|n IH].
  - simpl. ring.
  - rewrite Nat.pow_succ_r', (Nat.mul_comm (Kchar F)), !Kpow_mul, IH.
    apply Kpow_char_add.
Qed.

Lemma frobenius_pow_mul (n : nat) (x y : F) :
  frobenius_pow F n (x * y) = frobenius_pow F n x * frobenius_pow F n y.
Proof. apply Kpow_mul_base. Qed.

Lemma frobenius_pow_zero (n : nat) : frobenius_pow F n 0 = 0.
Proof.
  pose proof (frobenius_pow_add n 0 0) as H.
  replace (0 + 0) with (0 : F) in H by ring.
  set (z := frobenius_pow F n 0) in *.
  replace z with (z + z + - z) by ring. rewrite <- H. ring.
Qed.

Lemma frobenius_pow_one (n : nat) : frobenius_pow F n 1 = 1.
Proof. apply Kpow_one. Qed.

(** Iterating the [n]-fold Frobenius [i] times raises to the power
    [(p^n)^i]. *)
Lemma frobenius_pow_iter (n i : nat) (x : F) :
  Nat.iter i (frobenius_pow F n) x = Kpow F x ((Kchar F ^ n) ^ i).
Proof.
  induction i as [|i IH]; simpl.
  - ring.
  - rewrite IH. unfold frobenius_pow. rewrite <- Kpow_mul.
    f_equal. lia.
Qed.

End AmbientAlgebra.

(** ** Evaluation of coefficient lists *)

Section Coefficients.

Variable F : AmbientField.
Local Open Scope K_scope.

Add Ring CoefficientRing : (K_ring F).

Lemma operator_eval_from_shift (T : F -> F) (i : nat) (a : list F) (x : F) :
  operator_eval_from F T (S i) a x = operator_eval_from F T i a (T x).
Proof.
  revert i; induction a as [|c a IH]; intro i; simpl; [reflexivity|].
  rewrite <- IH, <- Nat.iter_succ_r. reflexivity.
Qed.

Lemma operator_eval_cons (T : F -> F) (c : F) (a : list F) (x : F) :
  operator_eval F T (c :: a) x = c * x + operator_eval F T a (T x).
Proof.
  unfold operator_eval. simpl. rewrite operator_eval_from_shift. reflexivity.
Qed.

Lemma operator_eval_nil (T : F -> F) (x : F) : operator_eval F T [] x = 0.
Proof. reflexivity. Qed.

Lemma operator_eval_from_iter (T : F -> F) (i : nat) (a : list F) (x : F) :
  operator_eval_from F T i a x = operator_eval F T a (Nat.iter i T x).
Proof.
  revert x; induction i as [|i IH]; intro x; [reflexivity|].
  rewrite operator_eval_from_shift, IH, <- Nat.iter_succ_r. reflexivity.
Qed.

Lemma operator_eval_add (T : F -> F) (a b : list F) (x : F) :
  operator_eval F T (coeffs_add F a b) x = operator_eval F T a x + operator_eval F T b x.
Proof.
  revert b x; induction a as [|c a IH]; intros [|d b] x; cbn [coeffs_add];
    rewrite ?operator_eval_cons, ?operator_eval_nil, ?IH; ring.
Qed.

Lemma operator_eval_scale (T : F -> F) (c : F) (a : list F) (x : F) :
  operator_eval F T (coeffs_scale F c a) x = c * operator_eval F T a x.
Proof.
  revert x; induction a as [|d a IH]; intro x; cbn [coeffs_scale map].
  - rewrite operator_eval_nil. ring.
  - rewrite !operator_eval_cons. fold (coeffs_scale F c a). rewrite IH. ring.
Qed.

Lemma operator_eval_shift (T : F -> F) (a : list F) (x : F) :
  operator_eval F T (0 :: a) x = operator_eval F T a (T x).
Proof. rewrite operator_eval_cons. ring. Qed.

Section Semilinear.

Variables T s : F -> F.
Hypothesis T_add : forall x y, T (x + y) = T x + T y.
Hypothesis T_zero : T 0 = 0.

(** [T] carries a sum of [b_j * T^j x] to the sum of [s b_j * T^(j+1) x]
    when it is [s]-semilinear on the coefficients. *)
Lemma operator_eval_semilinear (b : list F) (x : F) :
  Forall (fun c => forall y, T (c * y) = s c * T y) b ->
  T (operator_eval F T b x) = operator_eval F T (map s b) (T x).
Proof.
  intro H; revert x; induction H as [|c b Hc Hb IH]; intro x; cbn [map].
  - rewrite !operator_eval_nil. exact T_zero.
  - rewrite !operator_eval_cons, T_add, Hc, IH. reflexivity.
Qed.

Lemma operator_eval_skew_mul (a b : list F) (x : F) :
  (forall c y, T (c * y) = s c * T y) ->
  operator_eval F T (skew_mul F s a b) x = operator_eval F T a (operator_eval F T b x).
Proof.
  intro H; revert b x; induction a as [|c a IH]; intros b x; cbn [skew_mul].
  - reflexivity.
  - rewrite operator_eval_add, operator_eval_scale, operator_eval_shift, IH.
    rewrite operator_eval_cons, operator_eval_semilinear; [reflexivity|].
    apply Forall_forall; intros d _; apply H.
Qed.

End Semilinear.

Section Linear.

Variable T : F -> F.
Hypothesis T_add : forall x y, T (x + y) = T x + T y.
Hypothesis T_zero : T 0 = 0.

(** Multiplying in [Fq[X]] composes the operators, when [T] is linear over
    the coefficients of the right factor. *)
Lemma operator_eval_poly_mul (a b : list F) (x : F) :
  Forall (fun c => forall y, T (c * y) = c * T y) b ->
  operator_eval F T (poly_mul F a b) x = operator_eval F T a (operator_eval F T b x).
Proof.
  intro H; revert x; induction a as [|c a IH]; intro x; cbn [poly_mul].
  - reflexivity.
  - rewrite operator_eval_add, operator_eval_scale, operator_eval_shift, IH.
    rewrite operator_eval_cons.
    rewrite (operator_eval_semilinear T (fun c => c) T_add T_zero b x H).
    rewrite map_id. reflexivity.
Qed.

End Linear.

(** *** The twist is a ring endomorphism *)

Section Twist.

Variable sigma : F -> F.
Hypothesis sigma_add : forall x y, sigma (x + y) = sigma x + sigma y.
Hypothesis sigma_mul : forall x y, sigma (x * y) = sigma x * sigma y.
Hypothesis sigma_zero : sigma 0 = 0.

Lemma operator_eval_mul (a b : list F) (x : F) :
  operator_eval F sigma (skew_mul F sigma a b) x
  = operator_eval F sigma a (operator_eval F sigma b x).
Proof.
  apply operator_eval_skew_mul; auto.
Qed.

Lemma operator_eval_pow (a : list F) (n : nat) (x : F) :
  operator_eval F sigma (skew_pow F sigma a n) x = Nat.iter n (operator_eval F sigma a) x.
Proof.
  induction n as [|n IH]; cbn [skew_pow Nat.iter nat_rect].
  - rewrite operator_eval_cons, operator_eval_nil. ring.
  - rewrite operator_eval_mul, IH. reflexivity.
Qed.

(** Evaluating the image [sum c_j * gen^(i+j)] applies the operator of [gen]
    [i+j] times under each coefficient. *)
Lemma operator_eval_im_gens_sum (gen : list F) (i : nat) (g : list F) (x : F) :
  operator_eval F sigma (im_gens_sum_from F sigma gen i g) x
  = operator_eval_from F (operator_eval F sigma gen) i g x.
Proof.
  revert i; induction g as [|c g IH]; intro i; cbn [im_gens_sum_from].
  - reflexivity.
  - rewrite operator_eval_add, IH, operator_eval_mul, operator_eval_pow.
    cbn [operator_eval_from].
    rewrite operator_eval_cons, operator_eval_nil. ring.
Qed.

Lemma operator_eval_additive (a : list F) (x y : F) :
  operator_eval F sigma a (x + y) = operator_eval F sigma a x + operator_eval F sigma a y.
Proof.
  revert x y; induction a as [|c a IH]; intros x y.
  - rewrite !operator_eval_nil. ring.
  - rewrite !operator_eval_cons, sigma_add, IH. ring.
Qed.

Lemma operator_eval_at_zero (a : list F) : operator_eval F sigma a 0 = 0.
Proof.
  induction a as [|c a IH].
  - reflexivity.
  - rewrite operator_eval_cons, sigma_zero, IH. ring.
Qed.

(** The operator of an Ore polynomial is linear over the elements the twist
    fixes. *)
Lemma operator_eval_fixed_linear (a : list F) (c x : F) :
  sigma c = c ->
  operator_eval F sigma a (c * x) = c * operator_eval F sigma a x.
Proof.
  intro Hc; revert x; induction a as [|d a IH]; intro x.
  - rewrite !operator_eval_nil. ring.
  - rewrite !operator_eval_cons, sigma_mul, Hc, IH. ring.
Qed.

End Twist.

(** Evaluation through the [n]-fold Frobenius is the sum of
    [a_j * x^(q^j)] with [q = p^n]. *)
Lemma operator_eval_from_frobenius (n i : nat) (a : list F) (x : F) :
  operator_eval_from F (frobenius_pow F n) i a x
  = power_sum_from F (Kchar F ^ n) i a x.
Proof.
  revert i; induction a as [|c a IH]; intro i; simpl; [reflexivity|].
  rewrite IH, frobenius_pow_iter. reflexivity.
Qed.

End Coefficients.

(** ** The small instance *)

Module ExampleFacts.

Import Example.

Example construction :
  FiniteDrinfeldModule__init__ FqX (Obj_OrePolynomial phi_X) [] = (Ok phi, store).
Proof. reflexivity. Qed.

Example rank_phi : rank phi store = (Ok 1%Z, store).
Proof. reflexivity. Qed.

(** [X^2 + X + 1] acts on [w]: [phi_X(w) = w*w + w^2 = 0], so the result is
    [w]. *)
Example act_phi :
  bind (_get_action_ phi)
    (fun A => @_act_ GF4.field A [GF4.one; GF4.one; GF4.one] GF4.w) store
  = (Ok GF4.w, store).
Proof. reflexivity. Qed.

(** [X] acts on [1] as [phi_X]: the result is [w*1 + 1^2 = w + 1]. *)
Example act_X :
  bind (_get_action_ phi)
    (fun A => @_act_ GF4.field A [GF4.zero; GF4.one] GF4.one) store
  = (Ok (GF4.add GF4.w GF4.one), store).
Proof. reflexivity. Qed.

Example change_ring_GF16 :
  fst (change_ring phi GF16 store) = Ok 1.
Proof. reflexivity. Qed.

Example change_ring_GF8 :
  is_ValueError (fst (change_ring phi GF8 store)) = true.
Proof. reflexivity. Qed.

Lemma phi_constructed : constructed store phi.
Proof.
  exists FqX, (Obj_OrePolynomial phi_X), [], store, [].
  split; reflexivity.
Qed.

End ExampleFacts.

(** ** Reading the store *)

Section Store.

Variable F : AmbientField.

Implicit Types (h : heap F) (self : ref) (m : RingHomomorphism_im_gens F).

Lemma bind_ok {A B} (c : M F A) (k : A -> M F B) h a h' :
  c h = (Ok a, h') -> bind c k h = k a h'.
Proof. unfold bind; intros ->; reflexivity. Qed.

Lemma bind_raise {A B} (c : M F A) (k : A -> M F B) h e h' :
  c h = (Raise e, h') -> bind c k h = (Raise e, h').
Proof. unfold bind; intros ->; reflexivity. Qed.

Lemma read_at h self m : nth_error h self = Some m -> read self h = (Ok m, h).
Proof. unfold read; intros ->; reflexivity. Qed.

Lemma domain_at h self m :
  nth_error h self = Some m -> domain self h = (Ok (_domain m), h).
Proof. intro H. unfold domain. rewrite (bind_ok _ _ _ _ _ (read_at _ _ _ H)). reflexivity. Qed.

Lemma codomain_at h self m :
  nth_error h self = Some m -> codomain self h = (Ok (_codomain m), h).
Proof. intro H. unfold codomain. rewrite (bind_ok _ _ _ _ _ (read_at _ _ _ H)). reflexivity. Qed.

Lemma im_gens_at h self m :
  nth_error h self = Some m -> im_gens self h = (Ok (_im_gens m), h).
Proof. intro H. unfold im_gens. rewrite (bind_ok _ _ _ _ _ (read_at _ _ _ H)). reflexivity. Qed.

Lemma polring_at h self m :
  nth_error h self = Some m -> polring self h = (Ok (_domain m), h).
Proof. apply domain_at. Qed.

Lemma ore_polring_at h self m :
  nth_error h self = Some m -> ore_polring self h = (Ok (_codomain m), h).
Proof. apply codomain_at. Qed.

Lemma frobenius_at h self m :
  nth_error h self = Some m ->
  frobenius self h = (Ok (OrePolynomialRing.twisting_morphism (_codomain m)), h).
Proof.
  intro H. unfold frobenius.
  rewrite (bind_ok _ _ _ _ _ (ore_polring_at _ _ _ H)). reflexivity.
Qed.

Lemma gen_at h self m f :
  nth_error h self = Some m -> _im_gens m = [f] -> gen self h = (Ok f, h).
Proof.
  intros H E. unfold gen.
  rewrite (bind_ok _ _ _ _ _ (im_gens_at _ _ _ H)), E. reflexivity.
Qed.

Lemma rank_at h self m f :
  nth_error h self = Some m -> _im_gens m = [f] ->
  rank self h = (Ok (OrePolynomial_degree f), h).
Proof.
  intros H E. unfold rank.
  rewrite (bind_ok _ _ _ _ _ (gen_at _ _ _ _ H E)). reflexivity.
Qed.

Lemma nth_error_extend h (ext : heap F) self m :
  nth_error h self = Some m -> nth_error (h ++ ext) self = Some m.
Proof.
  intro H. rewrite nth_error_app1; [exact H|].
  apply nth_error_Some. congruence.
Qed.

Lemma nth_error_fresh h m : nth_error (h ++ [m]) (List.length h) = Some m.
Proof.
  rewrite nth_error_app2 by lia. rewrite Nat.sub_diag. reflexivity.
Qed.

Lemma check_base_fields_pass (Fq L : Ring) h :
  compatible Fq L = true -> _check_base_fields Fq L h = (Ok tt, h).
Proof. unfold _check_base_fields, compatible; intros ->; reflexivity. Qed.

Lemma check_base_fields_fail (Fq L : Ring) h :
  compatible Fq L = false ->
  _check_base_fields Fq L h
  = (Raise (ValueError "The base field of the Ore polynomial ring must be a finite field extension of the base field of the polynomial ring"), h).
Proof. unfold _check_base_fields, compatible; intros ->; reflexivity. Qed.

(** The initialiser on an Ore polynomial, check by check. *)
Lemma init_cases (polring : PolynomialRing.t) (f : OrePolynomial F) h :
  let Fq := PolynomialRing.base_ring polring in
  let Ltau := parent f in
  FiniteDrinfeldModule__init__ polring (Obj_OrePolynomial f) h =
  if negb (compatible Fq (OrePolynomialRing.base_ring Ltau)) then
    (Raise (ValueError "The base field of the Ore polynomial ring must be a finite field extension of the base field of the polynomial ring"), h)
  else if negb (is_None (OrePolynomialRing.twisting_derivation Ltau)) then
    (Raise (ValueError "The Ore polynomial ring should have no derivation"), h)
  else if negb (power (OrePolynomialRing.twisting_morphism Ltau) =? degree Fq)%Z then
    (Raise (ValueError "The twisting morphism of the Ore polynomial ring must be the Frobenius endomorphism of the base field of the polynomial ring"), h)
  else if is_constant f then
    (Raise (ValueError "The generator must not be constant"), h)
  else if negb (1 =? PolynomialRing.ngens polring)%Z then
    (Raise (ValueError "number of images must equal number of generators"), h)
  else
    (Ok (List.length h),
     h ++ [{| _domain := polring; _codomain := Ltau; _im_gens := [f] |}]).
Proof.
  intros Fq Ltau. unfold FiniteDrinfeldModule__init__.
  fold Fq Ltau.
  destruct (compatible Fq (OrePolynomialRing.base_ring Ltau)) eqn:Hc; cbn [negb].
  - rewrite (bind_ok _ _ _ _ _ (check_base_fields_pass _ _ h Hc)).
    destruct (is_None (OrePolynomialRing.twisting_derivation Ltau)); cbn [negb];
      [|reflexivity].
    destruct (power (OrePolynomialRing.twisting_morphism Ltau) =? degree Fq)%Z;
      cbn [negb]; [|reflexivity].
    destruct (is_constant f); [reflexivity|].
    unfold RingHomomorphism_im_gens__init__, Hom. cbn [fst snd List.length Z.of_nat].
    change (Z.pos (Pos.of_succ_nat 0)) with 1%Z.
    destruct (1 =? PolynomialRing.ngens polring)%Z; reflexivity.
  - rewrite (bind_raise _ _ _ _ _ (check_base_fields_fail _ _ h Hc)). reflexivity.
Qed.

Lemma init_success (polring : PolynomialRing.t) (g : object F) h self h' :
  FiniteDrinfeldModule__init__ polring g h = (Ok self, h') ->
  exists f,
    g = Obj_OrePolynomial f /\
    self = List.length h /\
    h' = h ++ [{| _domain := polring; _codomain := parent f; _im_gens := [f] |}] /\
    validated {| _domain := polring; _codomain := parent f; _im_gens := [f] |}.
Proof.
  destruct g as [f| | | | |]; try (cbn; discriminate).
  rewrite init_cases.
  destruct (compatible _ _) eqn:Hc; cbn [negb]; [|discriminate].
  destruct (OrePolynomialRing.twisting_derivation (parent f)) eqn:Hd; cbn [is_None negb];
    [discriminate|].
  destruct (Z.eqb_spec (power (OrePolynomialRing.twisting_morphism (parent f)))
              (degree (PolynomialRing.base_ring polring))) as [Hp|Hp];
    cbn [negb]; [|discriminate].
  destruct (is_constant f) eqn:Hk; [discriminate|].
  destruct (Z.eqb_spec 1 (PolynomialRing.ngens polring)) as [Hn|Hn];
    cbn [negb]; [|discriminate].
  intro E; inversion E; subst.
  exists f. repeat split; try reflexivity; try assumption.
  exists f. cbn. repeat split; auto.
Qed.

Lemma init_failure (polring : PolynomialRing.t) (g : object F) h e h' :
  FiniteDrinfeldModule__init__ polring g h = (Raise e, h') -> h' = h.
Proof.
  destruct g as [f| | | | |];
    try (unfold FiniteDrinfeldModule__init__, raise; congruence).
  rewrite init_cases.
  repeat match goal with
         | |- context [if ?b then _ else _] => destruct b
         end; congruence.
Qed.

Lemma constructed_validated h self :
  constructed h self -> exists m, nth_error h self = Some m /\ validated m.
Proof.
  intros (P & g & h0 & h1 & ext & Hinit & ->).
  destruct (init_success _ _ _ _ _ Hinit) as (f & -> & -> & -> & Hv).
  eexists; split; [|exact Hv].
  apply nth_error_extend, nth_error_fresh.
Qed.

Lemma constructed_extend h (ext : heap F) self :
  constructed h self -> constructed (h ++ ext) self.
Proof.
  intros (P & g & h0 & h1 & ext0 & Hinit & ->).
  exists P, g, h0, h1, (ext0 ++ ext). split; [exact Hinit|].
  rewrite app_assoc. reflexivity.
Qed.

End Store.

(** One step of a method: the next call is known to return, or to raise. *)
Ltac run H := rewrite (bind_ok _ _ _ _ _ _ H).
Ltac run_raise H := rewrite (bind_raise _ _ _ _ _ _ H).


(** ** Validation *)

Section Validation.

Variable F : AmbientField.

Implicit Types (h : heap F) (self : ref).

Lemma is_subring_divide (A B : Ring) :
  is_subring A B = true <-> (degree A | degree B)%Z.
Proof.
  unfold is_subring. rewrite Z.eqb_eq.
  destruct (Z.eq_dec (degree A) 0) as [E|E].
  - rewrite E, Z.mod_0_r. split.
    + intros ->. apply Z.divide_0_r.
    + intros [c Hc]. lia.
  - apply Z.mod_divide. exact E.
Qed.

Lemma is_subring_refl (A : Ring) : is_subring A A = true.
Proof. apply is_subring_divide, Z.divide_refl. Qed.

Lemma is_subring_trans (A B C : Ring) :
  is_subring A B = true -> is_subring B C = true -> is_subring A C = true.
Proof.
  rewrite !is_subring_divide. apply Z.divide_trans.
Qed.

(** C9: [_check_base_fields(Fq, L)] returns normally exactly when [L] is a
    field, [L] is finite and [Fq] is a subring of [L]; otherwise it raises a
    [ValueError]; in both cases the store is left as it was. *)
Theorem check_base_fields_iff (Fq L : Ring) h :
  (_check_base_fields Fq L h = (Ok tt, h)
   <-> is_field L = true /\ is_finite L = true /\ is_subring Fq L = true)
  /\ (~ (is_field L = true /\ is_finite L = true /\ is_subring Fq L = true)
      -> is_ValueError (fst (_check_base_fields Fq L h)) = true)
  /\ snd (_check_base_fields Fq L h) = h.
Proof.
  unfold _check_base_fields, raise, ret.
  destruct (is_field L), (is_finite L), (is_subring Fq L); cbn;
    repeat split; try tauto; try congruence;
    try (intros (? & ? & ?); congruence).
Qed.

(** C3: with a generator that is not an Ore polynomial the construction
    raises a [TypeError]; with an Ore polynomial the checks run in the order
    field compatibility, derivation, twist power, constant generator, each
    raising its own [ValueError], the first violation being the one reported;
    once they pass, the initialiser of the base class refuses a polynomial
    ring that does not have one generator, and the object is built otherwise;
    a constant generator, a derivation or a wrong twist power always make the
    construction fail; a failed construction leaves the store as it was. *)
Theorem construction_validation_order (polring : PolynomialRing.t) (g : object F) h :
  ((forall f, g <> Obj_OrePolynomial f) ->
   FiniteDrinfeldModule__init__ polring g h
   = (Raise (TypeError "The generator must be an Ore polynomial"), h))
  /\
  (forall f, g = Obj_OrePolynomial f ->
     let Fq := PolynomialRing.base_ring polring in
     let Ltau := parent f in
     let L := OrePolynomialRing.base_ring Ltau in
     let r := FiniteDrinfeldModule__init__ polring g h in
     (compatible Fq L = false ->
      r = (Raise (ValueError "The base field of the Ore polynomial ring must be a finite field extension of the base field of the polynomial ring"), h))
     /\
     (compatible Fq L = true ->
      OrePolynomialRing.twisting_derivation Ltau <> None ->
      r = (Raise (ValueError "The Ore polynomial ring should have no derivation"), h))
     /\
     (compatible Fq L = true ->
      OrePolynomialRing.twisting_derivation Ltau = None ->
      power (OrePolynomialRing.twisting_morphism Ltau) <> degree Fq ->
      r = (Raise (ValueError "The twisting morphism of the Ore polynomial ring must be the Frobenius endomorphism of the base field of the polynomial ring"), h))
     /\
     (compatible Fq L = true ->
      OrePolynomialRing.twisting_derivation Ltau = None ->
      power (OrePolynomialRing.twisting_morphism Ltau) = degree Fq ->
      is_constant f = true ->
      r = (Raise (ValueError "The generator must not be constant"), h))
     /\
     (compatible Fq L = true ->
      OrePolynomialRing.twisting_derivation Ltau = None ->
      power (OrePolynomialRing.twisting_morphism Ltau) = degree Fq ->
      is_constant f = false ->
      PolynomialRing.ngens polring <> 1%Z ->
      r = (Raise (ValueError "number of images must equal number of generators"), h))
     /\
     (compatible Fq L = true ->
      OrePolynomialRing.twisting_derivation Ltau = None ->
      power (OrePolynomialRing.twisting_morphism Ltau) = degree Fq ->
      is_constant f = false ->
      PolynomialRing.ngens polring = 1%Z ->
      r = (Ok (List.length h),
           h ++ [{| _domain := polring; _codomain := Ltau; _im_gens := [f] |}]))
     /\
     (is_constant f = true -> is_ValueError (fst r) = true)
     /\
     (OrePolynomialRing.twisting_derivation Ltau <> None -> is_ValueError (fst r) = true)
     /\
     (power (OrePolynomialRing.twisting_morphism Ltau) <> degree Fq ->
      is_ValueError (fst r) = true))
  /\
  (is_Ok (fst (FiniteDrinfeldModule__init__ polring g h)) = false ->
   snd (FiniteDrinfeldModule__init__ polring g h) = h).
Proof.
  split; [|split].
  - intro Hg. destruct g as [f| | | | |]; try reflexivity.
    exfalso; exact (Hg f eq_refl).
  - intros f -> Fq Ltau L r. subst r. rewrite init_cases. fold Fq Ltau L.
    destruct (compatible Fq L);
      destruct (OrePolynomialRing.twisting_derivation Ltau);
      destruct (Z.eqb_spec (power (OrePolynomialRing.twisting_morphism Ltau)) (degree Fq));
      destruct (is_constant f);
      destruct (Z.eqb_spec 1 (PolynomialRing.ngens polring));
      cbn [negb is_None fst is_ValueError];
      repeat split; intros; congruence.
  - destruct (FiniteDrinfeldModule__init__ polring g h) as [[self|e] h'] eqn:E.
    + cbn. discriminate.
    + intros _. cbn. exact (init_failure F _ _ _ _ _ E).
Qed.


End Validation.


(** ** Rank and action objects *)

Section Accessors.

Variable F : AmbientField.

Implicit Types (h : heap F) (self : ref).

Lemma validated_not_constant (m : RingHomomorphism_im_gens F) f :
  validated m -> _im_gens m = [f] -> (1 <= OrePolynomial_degree f)%Z.
Proof.
  intros (f' & E & _ & _ & _ & _ & Hk & _) E'.
  rewrite E in E'. inversion E'; subst f'.
  unfold is_constant in Hk. apply Z.leb_gt in Hk. lia.
Qed.

(** C5: on a validly constructed module, [rank()] returns the degree of
    [gen()], and that degree is at least 1. *)
Theorem rank_is_gen_degree h self :
  constructed h self ->
  exists g,
    gen self h = (Ok g, h) /\
    rank self h = (Ok (OrePolynomial_degree g), h) /\
    (1 <= OrePolynomial_degree g)%Z.
Proof.
  intro Hc.
  destruct (constructed_validated F h self Hc) as (m & Hm & Hv).
  pose proof Hv as (f & E & _).
  exists f. split; [|split].
  - exact (gen_at F h self m f Hm E).
  - exact (rank_at F h self m f Hm E).
  - exact (validated_not_constant m f Hv E).
Qed.

Lemma get_action_at h self (m : RingHomomorphism_im_gens F) :
  nth_error h self = Some m ->
  _get_action_ self h
  = (Ok {| __finite_drinfeld_module := self;
           G := _domain m;
           US := OrePolynomialRing.base_ring (_codomain m) |}, h).
Proof.
  intro Hm. unfold _get_action_, FiniteDrinfeldModuleAction__init__.
  run (polring_at F h self m Hm).
  run (ore_polring_at F h self m Hm).
  reflexivity.
Qed.

(** C8: the action of a validly constructed module has the polynomial ring
    of the module as acting ring [G] (the domain of the specification) and
    the base field [L] of its Ore polynomial ring, itself, as the set [US]
    acted upon (the codomain of the specification); it refers back to the
    module; building an action from anything that is not a
    [FiniteDrinfeldModule] raises a [TypeError]. *)
Theorem action_domain_and_codomain h self (o : object F) :
  constructed h self ->
  (exists A P Ltau,
     _get_action_ self h = (Ok A, h) /\
     polring self h = (Ok P, h) /\
     ore_polring self h = (Ok Ltau, h) /\
     G A = P /\
     US A = OrePolynomialRing.base_ring Ltau /\
     finite_drinfeld_module A h = (Ok self, h))
  /\
  ((forall r, o <> Obj_FiniteDrinfeldModule r) ->
   FiniteDrinfeldModuleAction__init__ o h
   = (Raise (TypeError "First argument must be a FiniteDrinfeldModule"), h)).
Proof.
  intro Hc.
  destruct (constructed_validated F h self Hc) as (m & Hm & _).
  split.
  - eexists _, _, _. split; [exact (get_action_at h self m Hm)|].
    split; [exact (polring_at F h self m Hm)|].
    split; [exact (ore_polring_at F h self m Hm)|].
    repeat split.
  - intro Ho. destruct o as [f|r| | | |]; try reflexivity.
    exfalso; exact (Ho r eq_refl).
Qed.

End Accessors.

Lemma rank_is_gen_degree_witness :
  constructed Example.store Example.phi /\
  exists g,
    gen Example.phi Example.store = (Ok g, Example.store) /\
    rank Example.phi Example.store = (Ok (OrePolynomial_degree g), Example.store) /\
    (1 <= OrePolynomial_degree g)%Z.
Proof.
  split.
  - exact ExampleFacts.phi_constructed.
  - exact (rank_is_gen_degree GF4.field Example.store Example.phi
             ExampleFacts.phi_constructed).
Defined.

Lemma action_domain_and_codomain_witness :
  constructed Example.store Example.phi /\
  (forall r, @Obj_None GF4.field <> Obj_FiniteDrinfeldModule r) /\
  (exists A P Ltau,
     _get_action_ Example.phi Example.store = (Ok A, Example.store) /\
     polring Example.phi Example.store = (Ok P, Example.store) /\
     ore_polring Example.phi Example.store = (Ok Ltau, Example.store) /\
     G A = P /\
     US A = OrePolynomialRing.base_ring Ltau /\
     finite_drinfeld_module A Example.store = (Ok Example.phi, Example.store)) /\
  FiniteDrinfeldModuleAction__init__ Obj_None Example.store
  = (Raise (TypeError "First argument must be a FiniteDrinfeldModule"), Example.store).
Proof.
  assert (Hn : forall r, @Obj_None GF4.field <> Obj_FiniteDrinfeldModule r)
    by (intros r; discriminate).
  split; [exact ExampleFacts.phi_constructed|].
  split; [exact Hn|].
  destruct (action_domain_and_codomain GF4.field Example.store Example.phi Obj_None
              ExampleFacts.phi_constructed) as [H1 H2].
  split; [exact H1 | exact (H2 Hn)].
Defined.

(** ** Base change *)

Section ChangeRing.

Variable F : AmbientField.

Implicit Types (h : heap F) (self : ref) (m : RingHomomorphism_im_gens F).

(** [change_ring], check by check, on an object of the store. *)
Lemma change_ring_cases h self m f (R : Ring) :
  nth_error h self = Some m -> _im_gens m = [f] ->
  change_ring self R h =
  if negb (is_field R) && is_finite R then
    (Raise (TypeError "Argument must be a finite field"), h)
  else if negb (is_subring (OrePolynomialRing.base_ring (_codomain m)) R) then
    (Raise (ValueError "The new field must be a finite field extension of the base field of the Ore polynomial ring."), h)
  else if negb (compatible (PolynomialRing.base_ring (_domain m)) R) then
    (Raise (ValueError "The base field of the Ore polynomial ring must be a finite field extension of the base field of the polynomial ring"), h)
  else
    FiniteDrinfeldModule__init__ (_domain m) (Obj_OrePolynomial (new_gen m R f)) h.
Proof.
  intros Hm Hf. unfold change_ring.
  destruct (negb (is_field R) && is_finite R); [reflexivity|].
  run (ore_polring_at F h self m Hm).
  destruct (is_subring (OrePolynomialRing.base_ring (_codomain m)) R);
    cbn [negb]; [|reflexivity].
  run (polring_at F h self m Hm).
  destruct (compatible (PolynomialRing.base_ring (_domain m)) R) eqn:Hc; cbn [negb].
  - run (check_base_fields_pass F _ _ h Hc).
    run (frobenius_at F h self m Hm).
    run (ore_polring_at F h self m Hm).
    run (polring_at F h self m Hm).
    run (gen_at F h self m f Hm Hf).
    reflexivity.
  - run_raise (check_base_fields_fail F _ _ h Hc).
    reflexivity.
Qed.

(** Once the three checks of [change_ring] pass on a validated object, the
    construction of the new module passes its own. *)
Lemma change_ring_constructs h m f (R : Ring) :
  validated m -> _im_gens m = [f] ->
  compatible (PolynomialRing.base_ring (_domain m)) R = true ->
  FiniteDrinfeldModule__init__ (_domain m) (Obj_OrePolynomial (new_gen m R f)) h
  = (Ok (List.length h),
     h ++ [{| _domain := _domain m;
              _codomain := new_ore_polring m R;
              _im_gens := [new_gen m R f] |}]).
Proof.
  intros (f' & E & _ & _ & _ & Hp & Hk & Hn) Hf Hc.
  rewrite E in Hf; inversion Hf; subst f'.
  rewrite init_cases.
  change (parent (new_gen m R f)) with (new_ore_polring m R).
  change (OrePolynomialRing.base_ring (new_ore_polring m R)) with R.
  change (OrePolynomialRing.twisting_derivation (new_ore_polring m R))
    with (@None Derivation).
  change (power (OrePolynomialRing.twisting_morphism (new_ore_polring m R)))
    with (power (OrePolynomialRing.twisting_morphism (_codomain m))).
  change (is_constant (new_gen m R f)) with (is_constant f).
  rewrite Hc, Hp, Z.eqb_refl, Hk, Hn. reflexivity.
Qed.

(** [change_ring] succeeds exactly on the finite fields that contain the
    base field of the Ore polynomial ring. *)
Lemma change_ring_succeeds_iff h self (R : Ring) :
  constructed h self ->
  exists Ltau,
    ore_polring self h = (Ok Ltau, h) /\
    (is_Ok (fst (change_ring self R h)) = true
     <-> is_field R = true /\ is_finite R = true
         /\ is_subring (OrePolynomialRing.base_ring Ltau) R = true).
Proof.
  intro Hc.
  destruct (constructed_validated F h self Hc) as (m & Hm & Hv).
  pose proof Hv as (f & Hf & _ & Hcompat & _).
  exists (_codomain m). split; [exact (ore_polring_at F h self m Hm)|].
  rewrite (change_ring_cases h self m f R Hm Hf).
  unfold compatible in Hcompat.
  apply andb_true_iff in Hcompat. destruct Hcompat as [_ Hsub].
  destruct (is_field R) eqn:HF, (is_finite R) eqn:HI;
    destruct (is_subring (OrePolynomialRing.base_ring (_codomain m)) R) eqn:HS;
    cbn [negb andb fst is_Ok];
    try (split; [discriminate | intros (? & ? & ?); discriminate]).
  - assert (Hc' : compatible (PolynomialRing.base_ring (_domain m)) R = true).
    { unfold compatible. rewrite HF, HI. cbn [andb].
      exact (is_subring_trans _ _ _ Hsub HS). }
    rewrite Hc'. cbn [negb].
    rewrite (change_ring_constructs h m f R Hv Hf Hc'). cbn. tauto.
  - unfold compatible. rewrite HF, HI. cbn.
    split; [discriminate | intros (? & ? & ?); discriminate].
  - unfold compatible. rewrite HF, HI. cbn.
    split; [discriminate | intros (? & ? & ?); discriminate].
Qed.

(** An infinite ring is never refused by the first check of [change_ring]:
    it is one of the next two that raises, a [ValueError]. *)
Lemma change_ring_TypeError_iff h self (R : Ring) :
  constructed h self ->
  (is_TypeError (fst (change_ring self R h)) = true
   <-> is_field R = false /\ is_finite R = true).
Proof.
  intro Hc.
  destruct (constructed_validated F h self Hc) as (m & Hm & Hv).
  pose proof Hv as (f & Hf & _).
  rewrite (change_ring_cases h self m f R Hm Hf).
  destruct (is_field R), (is_finite R); cbn [negb andb];
    try (cbn; tauto).
  all: destruct (is_subring (OrePolynomialRing.base_ring (_codomain m)) R);
    cbn [negb]; [|cbn; split; [discriminate | intros [? ?]; discriminate]].
  all: destruct (compatible (PolynomialRing.base_ring (_domain m)) R) eqn:Hc';
    cbn [negb]; [|cbn; split; [discriminate | intros [? ?]; discriminate]].
  all: rewrite (change_ring_constructs h m f R Hv Hf Hc');
    cbn; split; [discriminate | intros [? ?]; discriminate].
Qed.

Lemma change_ring_infinite_ring h self (R : Ring) :
  constructed h self -> is_finite R = false ->
  is_ValueError (fst (change_ring self R h)) = true.
Proof.
  intros Hc HI.
  destruct (constructed_validated F h self Hc) as (m & Hm & Hv).
  pose proof Hv as (f & Hf & _).
  rewrite (change_ring_cases h self m f R Hm Hf).
  rewrite HI, andb_false_r.
  destruct (is_subring (OrePolynomialRing.base_ring (_codomain m)) R);
    cbn [negb]; [|reflexivity].
  unfold compatible. rewrite HI, andb_false_r. reflexivity.
Qed.

(** What a successful [change_ring] returns. *)
Lemma change_ring_success h self (R : Ring) self' h' :
  constructed h self ->
  change_ring self R h = (Ok self', h') ->
  exists m f,
    nth_error h self = Some m /\ _im_gens m = [f] /\
    self' = List.length h /\
    h' = h ++ [{| _domain := _domain m;
                  _codomain := new_ore_polring m R;
                  _im_gens := [new_gen m R f] |}] /\
    FiniteDrinfeldModule__init__ (_domain m) (Obj_OrePolynomial (new_gen m R f)) h
    = (Ok self', h').
Proof.
  intros Hc Hr.
  destruct (constructed_validated F h self Hc) as (m & Hm & Hv).
  pose proof Hv as (f & Hf & _).
  exists m, f. split; [exact Hm|]. split; [exact Hf|].
  rewrite (change_ring_cases h self m f R Hm Hf) in Hr.
  destruct (negb (is_field R) && is_finite R); [discriminate|].
  destruct (negb (is_subring _ R)); [discriminate|].
  destruct (compatible (PolynomialRing.base_ring (_domain m)) R) eqn:Hc';
    cbn [negb] in Hr; [|discriminate].
  pose proof (change_ring_constructs h m f R Hv Hf Hc') as Hi.
  rewrite Hi in Hr. inversion Hr; subst. repeat split. exact Hi.
Qed.

Lemma change_ring_failure h self (R : Ring) e h' :
  constructed h self ->
  change_ring self R h = (Raise e, h') -> h' = h.
Proof.
  intros Hc Hr.
  destruct (constructed_validated F h self Hc) as (m & Hm & Hv).
  pose proof Hv as (f & Hf & _).
  rewrite (change_ring_cases h self m f R Hm Hf) in Hr.
  destruct (negb (is_field R) && is_finite R); [congruence|].
  destruct (negb (is_subring _ R)); [congruence|].
  destruct (negb (compatible _ R)); [congruence|].
  exact (init_failure F _ _ _ _ _ Hr).
Qed.

End ChangeRing.

Section ChangeRingProperties.

Variable F : AmbientField.

Implicit Types (h : heap F) (self : ref).

(** C6: when [change_ring(R)] succeeds on a validly constructed module, the
    module it returns has the rank of the original, read before or after the
    call. *)
Theorem change_ring_preserves_rank h self (R : Ring) self' h' :
  constructed h self ->
  change_ring self R h = (Ok self', h') ->
  exists n,
    rank self h = (Ok n, h) /\
    rank self h' = (Ok n, h') /\
    rank self' h' = (Ok n, h').
Proof.
  intros Hc Hr.
  destruct (change_ring_success F h self R self' h' Hc Hr)
    as (m & f & Hm & Hf & -> & -> & _).
  exists (OrePolynomial_degree f). split; [|split].
  - exact (rank_at F h self m f Hm Hf).
  - exact (rank_at F _ self m f (nth_error_extend F h _ self m Hm) Hf).
  - exact (rank_at F _ _
             {| _domain := _domain m;
                _codomain := new_ore_polring m R;
                _im_gens := [new_gen m R f] |}
             (new_gen m R f) (nth_error_fresh F h _) eq_refl).
Qed.

(** C7: [change_ring] leaves every object of the store as it was, so the
    getters and the rank of the original answer as before, whether the call
    succeeds or fails; a failing call leaves the store itself unchanged; a
    successful call returns a new address, distinct from every object that
    existed, whose object went through the checks of the initialiser. *)
Theorem change_ring_frame h self (R : Ring) :
  constructed h self ->
  let r := change_ring self R h in
  (forall a m, nth_error h a = Some m -> nth_error (snd r) a = Some m)
  /\ fst (polring self (snd r)) = fst (polring self h)
  /\ fst (ore_polring self (snd r)) = fst (ore_polring self h)
  /\ fst (gen self (snd r)) = fst (gen self h)
  /\ fst (frobenius self (snd r)) = fst (frobenius self h)
  /\ fst (rank self (snd r)) = fst (rank self h)
  /\ (is_Ok (fst r) = false -> snd r = h)
  /\ (forall self', fst r = Ok self' ->
        nth_error h self' = None /\
        self' <> self /\
        constructed (snd r) self' /\
        exists polring g, FiniteDrinfeldModule__init__ polring g h = r).
Proof.
  intros Hc r.
  destruct (constructed_validated F h self Hc) as (m & Hm & Hv).
  pose proof Hv as (f & Hf & _).
  assert (Hext : exists ext, snd r = h ++ ext).
  { subst r. destruct (change_ring self R h) as [[self'|e] h'] eqn:Hr.
    - destruct (change_ring_success F h self R self' h' Hc Hr)
        as (m' & f' & _ & _ & _ & -> & _).
      eexists; reflexivity.
    - rewrite (change_ring_failure F h self R e h' Hc Hr).
      exists []. cbn. rewrite app_nil_r. reflexivity. }
  destruct Hext as [ext Hext].
  assert (Hm' : nth_error (snd r) self = Some m)
    by (rewrite Hext; exact (nth_error_extend F h ext self m Hm)).
  split; [|split; [|split; [|split; [|split; [|split; [|split]]]]]].
  - intros a m0 Ha. rewrite Hext. exact (nth_error_extend F h ext a m0 Ha).
  - rewrite (polring_at F _ _ _ Hm'), (polring_at F _ _ _ Hm). reflexivity.
  - rewrite (ore_polring_at F _ _ _ Hm'), (ore_polring_at F _ _ _ Hm). reflexivity.
  - rewrite (gen_at F _ _ _ _ Hm' Hf), (gen_at F _ _ _ _ Hm Hf). reflexivity.
  - rewrite (frobenius_at F _ _ _ Hm'), (frobenius_at F _ _ _ Hm). reflexivity.
  - rewrite (rank_at F _ _ _ _ Hm' Hf), (rank_at F _ _ _ _ Hm Hf). reflexivity.
  - subst r. destruct (change_ring self R h) as [[self'|e] h'] eqn:Hr.
    + cbn. discriminate.
    + intros _. exact (change_ring_failure F h self R e h' Hc Hr).
  - intros self' Hs. subst r.
    destruct (change_ring self R h) as [[self0|e] h'] eqn:Hr; [|discriminate].
    cbn in Hs. inversion Hs; subst self0.
    destruct (change_ring_success F h self R self' h' Hc Hr)
      as (m' & f' & _ & _ & Hself' & _ & Hinit).
    split; [|split; [|split]].
    + apply nth_error_None. lia.
    + intros ->. assert (nth_error h self <> None) by congruence.
      apply nth_error_Some in H. lia.
    + cbn [snd]. exists (_domain m'), (Obj_OrePolynomial (new_gen m' R f')), h, h', [].
      split; [exact Hinit | rewrite app_nil_r; reflexivity].
    + exists (_domain m'), (Obj_OrePolynomial (new_gen m' R f')). exact Hinit.
Qed.

End ChangeRingProperties.

Lemma change_ring_preserves_rank_witness :
  constructed Example.store Example.phi /\
  change_ring Example.phi Example.GF16 Example.store
  = (Ok 1, snd (change_ring Example.phi Example.GF16 Example.store)) /\
  exists n,
    rank Example.phi Example.store = (Ok n, Example.store) /\
    rank Example.phi (snd (change_ring Example.phi Example.GF16 Example.store))
    = (Ok n, snd (change_ring Example.phi Example.GF16 Example.store)) /\
    rank 1 (snd (change_ring Example.phi Example.GF16 Example.store))
    = (Ok n, snd (change_ring Example.phi Example.GF16 Example.store)).
Proof.
  split; [exact ExampleFacts.phi_constructed|].
  split; [reflexivity|].
  exact (change_ring_preserves_rank GF4.field Example.store Example.phi Example.GF16
           1 (snd (change_ring Example.phi Example.GF16 Example.store))
           ExampleFacts.phi_constructed eq_refl).
Defined.

Lemma change_ring_frame_witness :
  constructed Example.store Example.phi /\
  fst (rank Example.phi (snd (change_ring Example.phi Example.GF16 Example.store)))
  = fst (rank Example.phi Example.store) /\
  snd (change_ring Example.phi Example.GF8 Example.store) = Example.store.
Proof.
  split; [exact ExampleFacts.phi_constructed|].
  split.
  - exact (proj1 (proj2 (proj2 (proj2 (proj2 (proj2
             (change_ring_frame GF4.field Example.store Example.phi Example.GF16
                ExampleFacts.phi_constructed))))))).
  - exact (proj1 (proj2 (proj2 (proj2 (proj2 (proj2 (proj2
             (change_ring_frame GF4.field Example.store Example.phi Example.GF8
                ExampleFacts.phi_constructed))))))) eq_refl).
Defined.

(** C4: the first check of [change_ring] reads
    [not R.is_field() and R.is_finite()], so it refuses the finite rings that
    are not fields and lets every infinite ring through.  On a field that is
    not finite (here the field of rational functions over [L]) and on an
    infinite ring that is not a field (here the polynomials over [L]) the call
    fails in [_check_base_fields] with a [ValueError], and no [TypeError] is
    raised; the [TypeError] is raised on a finite ring that is not a field. *)
Theorem change_ring_lets_infinite_rings_through :
  change_ring Example.phi Example.rational_functions Example.store
  = (Raise (ValueError "The base field of the Ore polynomial ring must be a finite field extension of the base field of the polynomial ring"),
     Example.store)
  /\ change_ring Example.phi Example.polynomials Example.store
     = (Raise (ValueError "The base field of the Ore polynomial ring must be a finite field extension of the base field of the polynomial ring"),
        Example.store)
  /\ change_ring Example.phi Example.dual_numbers Example.store
     = (Raise (TypeError "Argument must be a finite field"), Example.store).
Proof. repeat split; reflexivity. Qed.

(** ** The module law *)

Section ModuleLaw.

Variable F : AmbientField.
Local Open Scope K_scope.

Implicit Types (h : heap F) (self : ref) (m : RingHomomorphism_im_gens F).

Add Ring ModuleLawRing : (K_ring F).

(** The twist of a validated module is the Frobenius of [Fq]. *)
Lemma validated_twist m :
  validated m ->
  twist F (_codomain m)
  = frobenius_pow F (Z.to_nat (degree (PolynomialRing.base_ring (_domain m)))).
Proof.
  intros (f & _ & _ & _ & _ & Hp & _). unfold twist. rewrite Hp. reflexivity.
Qed.

Lemma call_at h self m f (g : list F) :
  nth_error h self = Some m -> _im_gens m = [f] ->
  FiniteDrinfeldModule_call self g h
  = (Ok {| parent := _codomain m;
           coefficients :=
             im_gens_sum_from F (twist F (_codomain m)) (coefficients f) O g |}, h).
Proof.
  intros Hm Hf. unfold FiniteDrinfeldModule_call.
  run (codomain_at F h self m Hm).
  run (gen_at F h self m f Hm Hf).
  reflexivity.
Qed.

Lemma act_at h self m f (A : FiniteDrinfeldModuleAction) (g : list F) (x : F) :
  nth_error h self = Some m -> _im_gens m = [f] ->
  __finite_drinfeld_module A = self ->
  _act_ A g x h
  = (Ok (operator_eval F (twist F (_codomain m))
           (im_gens_sum_from F (twist F (_codomain m)) (coefficients f) O g) x), h).
Proof.
  intros Hm Hf HA. unfold _act_, finite_drinfeld_module.
  rewrite HA.
  run (eq_refl : ret self h = (Ok self, h)).
  run (call_at h self m f g Hm Hf).
  reflexivity.
Qed.

(** The action through the operator [x |-> gen(x)] of the generator: the
    polynomial [sum c_j X^j] acts as [sum c_j * gen^j(x)]. *)
Lemma act_by_operator h self m f (A : FiniteDrinfeldModuleAction) (g : list F) (x : F) :
  nth_error h self = Some m -> _im_gens m = [f] ->
  __finite_drinfeld_module A = self ->
  _act_ A g x h
  = (Ok (operator_eval F
           (operator_eval F (twist F (_codomain m)) (coefficients f)) g x), h).
Proof.
  intros Hm Hf HA. rewrite (act_at h self m f A g x Hm Hf HA).
  unfold twist. rewrite operator_eval_im_gens_sum.
  - reflexivity.
  - apply frobenius_pow_add.
  - apply frobenius_pow_mul.
  - apply frobenius_pow_zero.
Qed.

Lemma get_action_inv h self m (A : FiniteDrinfeldModuleAction) :
  nth_error h self = Some m ->
  _get_action_ self h = (Ok A, h) ->
  __finite_drinfeld_module A = self /\ G A = _domain m.
Proof.
  intros Hm HA. rewrite (get_action_at F h self m Hm) in HA.
  inversion HA; subst A. split; reflexivity.
Qed.

(** C1: on a validly constructed module with generator [gen] over [Fq] of
    cardinality [q], [act(g, x)] returns the sum of [a_i * x^(q^i)], where the
    [a_i] are the coefficients of [sum c_j * gen^j], the [c_j] being those of
    [g], computed in the ring where [tau * c = c^q * tau]. *)
Theorem act_is_frobenius_evaluation h self (A : FiniteDrinfeldModuleAction)
  (g : list F) (x : F) :
  constructed h self ->
  _get_action_ self h = (Ok A, h) ->
  exists P phi_X,
    polring self h = (Ok P, h) /\
    gen self h = (Ok phi_X, h) /\
    let q := cardinality (Kchar F) (PolynomialRing.base_ring P) in
    let image :=
      im_gens_sum_from F (fun c => Kpow F c q) (coefficients phi_X) O g in
    _act_ A g x h = (Ok (power_sum_from F q O image x), h).
Proof.
  intros Hc HA.
  destruct (constructed_validated F h self Hc) as (m & Hm & Hv).
  pose proof Hv as (f & Hf & _).
  destruct (get_action_inv h self m A Hm HA) as [HA1 _].
  exists (_domain m), f.
  split; [exact (polring_at F h self m Hm)|].
  split; [exact (gen_at F h self m f Hm Hf)|].
  intros q image.
  rewrite (act_at h self m f A g x Hm Hf HA1).
  rewrite (validated_twist m Hv).
  unfold operator_eval. rewrite operator_eval_from_frobenius.
  reflexivity.
Qed.

(** C2: the action of a validly constructed module is additive in the
    polynomial, turns the product of polynomials into composition, and lets
    the constant polynomial [1] act as the identity.  Only the right factor
    of the product needs its coefficients in [Fq]. *)
Theorem act_module_laws h self (A : FiniteDrinfeldModuleAction)
  (g1 g2 : list F) (x : F) :
  constructed h self ->
  _get_action_ self h = (Ok A, h) ->
  in_polring (G A) g2 ->
  exists a1 a2 a12,
    _act_ A g1 x h = (Ok a1, h) /\
    _act_ A g2 x h = (Ok a2, h) /\
    _act_ A (coeffs_add F g1 g2) x h = (Ok (a1 + a2), h) /\
    _act_ A g1 a2 h = (Ok a12, h) /\
    _act_ A (poly_mul F g1 g2) x h = (Ok a12, h) /\
    _act_ A [1] x h = (Ok x, h).
Proof.
  intros Hc HA Hg2.
  destruct (constructed_validated F h self Hc) as (m & Hm & Hv).
  pose proof Hv as (f & Hf & _).
  destruct (get_action_inv h self m A Hm HA) as [HA1 HG].
  set (sigma := twist F (_codomain m)).
  set (T := operator_eval F sigma (coefficients f)).
  assert (Hadd : forall u v, sigma (u + v) = sigma u + sigma v)
    by (intros; apply frobenius_pow_add).
  assert (Hmul : forall u v, sigma (u * v) = sigma u * sigma v)
    by (intros; apply frobenius_pow_mul).
  assert (Hzero : sigma 0 = 0) by apply frobenius_pow_zero.
  exists (operator_eval F T g1 x), (operator_eval F T g2 x),
    (operator_eval F T g1 (operator_eval F T g2 x)).
  rewrite !(act_by_operator h self m f A _ _ Hm Hf HA1).
  fold sigma T.
  repeat split.
  - rewrite operator_eval_add. reflexivity.
  - rewrite operator_eval_poly_mul; [reflexivity | | |].
    + intros u v. apply operator_eval_additive. exact Hadd.
    + apply operator_eval_at_zero. exact Hzero.
    + rewrite HG in Hg2. unfold in_polring in Hg2.
      apply Forall_forall. intros c Hin y.
      rewrite Forall_forall in Hg2. specialize (Hg2 c Hin).
      apply operator_eval_fixed_linear; [exact Hmul|].
      unfold sigma. rewrite (validated_twist m Hv). exact Hg2.
  - rewrite operator_eval_cons, operator_eval_nil. f_equal. f_equal. ring.
Qed.

End ModuleLaw.

Lemma act_is_frobenius_evaluation_witness :
  constructed Example.store Example.phi /\
  _get_action_ Example.phi Example.store
  = (Ok {| __finite_drinfeld_module := Example.phi;
           G := Example.FqX; US := Example.L |}, Example.store) /\
  exists P phi_X,
    polring Example.phi Example.store = (Ok P, Example.store) /\
    gen Example.phi Example.store = (Ok phi_X, Example.store) /\
    let q := cardinality (Kchar GF4.field) (PolynomialRing.base_ring P) in
    let image :=
      im_gens_sum_from GF4.field (fun c => Kpow GF4.field c q)
        (coefficients phi_X) O [GF4.one; GF4.one; GF4.one] in
    @_act_ GF4.field
      {| __finite_drinfeld_module := Example.phi; G := Example.FqX; US := Example.L |}
      [GF4.one; GF4.one; GF4.one] GF4.w Example.store
    = (Ok (power_sum_from GF4.field q O image GF4.w), Example.store).
Proof.
  split; [exact ExampleFacts.phi_constructed|].
  split; [reflexivity|].
  exact (act_is_frobenius_evaluation GF4.field Example.store Example.phi
           {| __finite_drinfeld_module := Example.phi;
              G := Example.FqX; US := Example.L |}
           [GF4.one; GF4.one; GF4.one] GF4.w
           ExampleFacts.phi_constructed eq_refl).
Defined.

Lemma act_module_laws_witness :
  constructed Example.store Example.phi /\
  @in_polring GF4.field Example.FqX [GF4.zero; GF4.one] /\
  let A := {| __finite_drinfeld_module := Example.phi;
              G := Example.FqX; US := Example.L |} in
  exists a1 a2 a12,
    @_act_ GF4.field A [GF4.one; GF4.one] GF4.w Example.store = (Ok a1, Example.store) /\
    @_act_ GF4.field A [GF4.zero; GF4.one] GF4.w Example.store = (Ok a2, Example.store) /\
    @_act_ GF4.field A (coeffs_add GF4.field [GF4.one; GF4.one] [GF4.zero; GF4.one])
      GF4.w Example.store = (Ok (GF4.add a1 a2), Example.store) /\
    @_act_ GF4.field A [GF4.one; GF4.one] a2 Example.store = (Ok a12, Example.store) /\
    @_act_ GF4.field A (poly_mul GF4.field [GF4.one; GF4.one] [GF4.zero; GF4.one])
      GF4.w Example.store = (Ok a12, Example.store) /\
    @_act_ GF4.field A [GF4.one] GF4.w Example.store = (Ok GF4.w, Example.store).
Proof.
  assert (Hin : @in_polring GF4.field Example.FqX [GF4.zero; GF4.one])
    by (repeat constructor).
  split; [exact ExampleFacts.phi_constructed|].
  split; [exact Hin|].
  exact (act_module_laws GF4.field Example.store Example.phi
           {| __finite_drinfeld_module := Example.phi;
              G := Example.FqX; US := Example.L |}
           [GF4.one; GF4.one] [GF4.zero; GF4.one] GF4.w
           ExampleFacts.phi_constructed eq_refl Hin).
Defined.

Lemma construction_validation_order_witness :
  FiniteDrinfeldModule__init__ Example.FqX (@Obj_None GF4.field) []
  = (Raise (TypeError "The generator must be an Ore polynomial"), [])
  /\
  FiniteDrinfeldModule__init__ Example.FqX
    (Obj_OrePolynomial (Build_OrePolynomial GF4.field Example.Ltau [GF4.w])) []
  = (Raise (ValueError "The generator must not be constant"), []).
Proof.
  split.
  - apply (proj1 (construction_validation_order GF4.field Example.FqX Obj_None [])).
    intros f; discriminate.
  - exact (proj1 (proj2 (proj2 (proj2
             (proj1 (proj2 (construction_validation_order GF4.field Example.FqX
                              (Obj_OrePolynomial
                                 (Build_OrePolynomial GF4.field Example.Ltau [GF4.w]))
                              []))
                (Build_OrePolynomial GF4.field Example.Ltau [GF4.w]) eq_refl))))
             eq_refl eq_refl eq_refl eq_refl).
Defined.

(** * Further properties of the source *)

(** ** Construction and getters *)

Section ConstructionProperties.

Variable F : AmbientField.

Implicit Types (h : heap F) (self : ref).

(** X1: what a successful construction stores is what the getters give back:
    [polring()] is the first argument, [gen()] the second, [ore_polring()]
    the parent of the generator, [frobenius()] the twisting morphism of that
    parent and [rank()] the degree of the generator; none of them changes
    the store. *)
Theorem construction_getters_round_trip (FqX : PolynomialRing.t) (g : object F)
  h self h' :
  FiniteDrinfeldModule__init__ FqX g h = (Ok self, h') ->
  exists f,
    g = Obj_OrePolynomial f /\
    polring self h' = (Ok FqX, h') /\
    gen self h' = (Ok f, h') /\
    ore_polring self h' = (Ok (parent f), h') /\
    frobenius self h' = (Ok (OrePolynomialRing.twisting_morphism (parent f)), h') /\
    rank self h' = (Ok (OrePolynomial_degree f), h').
Proof.
  intro Hinit.
  destruct (init_success F _ _ _ _ _ Hinit) as (f & -> & -> & -> & _).
  exists f. split; [reflexivity|].
  pose proof (nth_error_fresh F h
                {| _domain := FqX; _codomain := parent f; _im_gens := [f] |}) as Hm.
  split; [exact (polring_at F _ _ _ Hm)|].
  split; [exact (gen_at F _ _ _ f Hm eq_refl)|].
  split; [exact (ore_polring_at F _ _ _ Hm)|].
  split; [exact (frobenius_at F _ _ _ Hm)|].
  exact (rank_at F _ _ _ f Hm eq_refl).
Qed.

(** X2: the checks of the initialiser hold of every validly constructed
    module for as long as it lives, as read through its getters: the base
    field [L] of [ore_polring()] is a finite field containing the base ring
    of [polring()], the Ore polynomial ring has no derivation, the power of
    [frobenius()] is the degree of [Fq], and [gen()] is a non-constant
    element of [ore_polring()]. *)
Theorem constructed_invariants h self :
  constructed h self ->
  exists P Ltau f frob,
    polring self h = (Ok P, h) /\
    ore_polring self h = (Ok Ltau, h) /\
    gen self h = (Ok f, h) /\
    frobenius self h = (Ok frob, h) /\
    parent f = Ltau /\
    is_field (OrePolynomialRing.base_ring Ltau) = true /\
    is_finite (OrePolynomialRing.base_ring Ltau) = true /\
    is_subring (PolynomialRing.base_ring P) (OrePolynomialRing.base_ring Ltau) = true /\
    OrePolynomialRing.twisting_derivation Ltau = None /\
    power frob = degree (PolynomialRing.base_ring P) /\
    is_constant f = false.
Proof.
  intro Hc.
  destruct (constructed_validated F h self Hc) as (m & Hm & Hv).
  destruct Hv as (f & Hf & Hpar & Hcompat & Hder & Hpow & Hk & _).
  exists (_domain m), (_codomain m), f,
    (OrePolynomialRing.twisting_morphism (_codomain m)).
  unfold compatible in Hcompat.
  apply andb_true_iff in Hcompat. destruct Hcompat as [Hcompat Hsub].
  apply andb_true_iff in Hcompat. destruct Hcompat as [Hfield Hfin].
  split; [exact (polring_at F _ _ _ Hm)|].
  split; [exact (ore_polring_at F _ _ _ Hm)|].
  split; [exact (gen_at F _ _ _ f Hm Hf)|].
  split; [exact (frobenius_at F _ _ _ Hm)|].
  repeat split; auto.
Qed.

(** X3: a construction, successful or not, disturbs no module that exists:
    every object of the store stays as it was, a module constructed before is
    still one, and the address of a new module is different from every
    address in use. *)
Theorem construction_frame (FqX : PolynomialRing.t) (g : object F) h self :
  constructed h self ->
  let r := FiniteDrinfeldModule__init__ FqX g h in
  (forall a m, nth_error h a = Some m -> nth_error (snd r) a = Some m)
  /\ constructed (snd r) self
  /\ (forall self', fst r = Ok self' ->
        self' <> self /\ nth_error h self' = None /\ constructed (snd r) self').
Proof.
  intros Hc r.
  destruct (constructed_validated F h self Hc) as (m & Hm & _).
  subst r. destruct (FiniteDrinfeldModule__init__ FqX g h) as [[self'|e] h'] eqn:E.
  - destruct (init_success F _ _ _ _ _ E) as (f & -> & -> & -> & _).
    cbn [fst snd]. split; [|split].
    + intros a m0 Ha. exact (nth_error_extend F h _ a m0 Ha).
    + exact (constructed_extend F h _ self Hc).
    + intros s Hs. inversion Hs; subst s. split; [|split].
      * intros E'. assert (Hn : nth_error h self <> None) by congruence.
        apply nth_error_Some in Hn. lia.
      * apply nth_error_None. lia.
      * exists FqX, (Obj_OrePolynomial f), h,
          (h ++ [{| _domain := FqX; _codomain := parent f; _im_gens := [f] |}]),
          [].
        split; [exact E|]. rewrite app_nil_r. reflexivity.
  - rewrite (init_failure F _ _ _ _ _ E). cbn [fst snd].
    split; [|split]; [auto | exact Hc | discriminate].
Qed.

(** Methods that leave every store as they found it. *)
Lemma read_only_read self h : snd (read self h) = h.
Proof. unfold read; destruct (nth_error h self); reflexivity. Qed.

Lemma read_only_bind {A B} (c : M F A) (k : A -> M F B) :
  (forall h, snd (c h) = h) -> (forall a h, snd (k a h) = h) ->
  forall h, snd (bind c k h) = h.
Proof.
  intros Hc Hk h. unfold bind. specialize (Hc h).
  destruct (c h) as [[a|e] h0]; cbn in Hc; subst h0; [apply Hk | reflexivity].
Qed.

Lemma read_only_codomain self h : snd (codomain self h) = h.
Proof.
  revert h. unfold codomain.
  apply read_only_bind; [apply read_only_read | reflexivity].
Qed.

Lemma read_only_domain self h : snd (domain self h) = h.
Proof.
  revert h. unfold domain.
  apply read_only_bind; [apply read_only_read | reflexivity].
Qed.

Lemma read_only_gen self h : snd (gen self h) = h.
Proof.
  revert h. unfold gen, im_gens.
  apply read_only_bind.
  - apply read_only_bind; [apply read_only_read | reflexivity].
  - intros [|f [|f' l]]; reflexivity.
Qed.

Lemma read_only_call self (g : list F) h :
  snd (FiniteDrinfeldModule_call self g h) = h.
Proof.
  revert h. unfold FiniteDrinfeldModule_call.
  apply read_only_bind; [apply read_only_codomain|]. intro Ltau.
  apply read_only_bind; [apply read_only_gen | reflexivity].
Qed.

(** X4: the getters, [rank], [_get_action_], the application of the module
    to a polynomial and [_act_] never write to the store, whatever the store
    and the address they are given, also when they raise. *)
Theorem queries_never_write h self (A : FiniteDrinfeldModuleAction)
  (g : list F) (x : F) :
  snd (polring self h) = h
  /\ snd (ore_polring self h) = h
  /\ snd (frobenius self h) = h
  /\ snd (gen self h) = h
  /\ snd (rank self h) = h
  /\ snd (_get_action_ self h) = h
  /\ snd (FiniteDrinfeldModule_call self g h) = h
  /\ snd (_act_ A g x h) = h.
Proof.
  repeat split.
  - apply read_only_domain.
  - apply read_only_codomain.
  - revert h. unfold frobenius, ore_polring.
    apply read_only_bind; [apply read_only_codomain | reflexivity].
  - apply read_only_gen.
  - revert h. unfold rank.
    apply read_only_bind; [apply read_only_gen | reflexivity].
  - revert h.
    unfold _get_action_, FiniteDrinfeldModuleAction__init__, polring, ore_polring.
    apply read_only_bind; [apply read_only_domain|]. intro P.
    apply read_only_bind; [apply read_only_codomain | reflexivity].
  - apply read_only_call.
  - revert h. unfold _act_, finite_drinfeld_module.
    apply read_only_bind; [reflexivity|]. intro phi.
    apply read_only_bind; [apply read_only_call | reflexivity].
Qed.

End ConstructionProperties.

Lemma construction_getters_round_trip_witness :
  exists f,
    Obj_OrePolynomial Example.phi_X = Obj_OrePolynomial f /\
    polring Example.phi Example.store = (Ok Example.FqX, Example.store) /\
    gen Example.phi Example.store = (Ok f, Example.store) /\
    ore_polring Example.phi Example.store = (Ok (parent f), Example.store) /\
    frobenius Example.phi Example.store
    = (Ok (OrePolynomialRing.twisting_morphism (parent f)), Example.store) /\
    rank Example.phi Example.store = (Ok (OrePolynomial_degree f), Example.store).
Proof.
  exact (construction_getters_round_trip GF4.field Example.FqX
           (Obj_OrePolynomial Example.phi_X) [] Example.phi Example.store eq_refl).
Defined.

Lemma constructed_invariants_witness :
  constructed Example.store Example.phi /\
  exists P Ltau f frob,
    polring Example.phi Example.store = (Ok P, Example.store) /\
    ore_polring Example.phi Example.store = (Ok Ltau, Example.store) /\
    gen Example.phi Example.store = (Ok f, Example.store) /\
    frobenius Example.phi Example.store = (Ok frob, Example.store) /\
    parent f = Ltau /\
    is_field (OrePolynomialRing.base_ring Ltau) = true /\
    is_finite (OrePolynomialRing.base_ring Ltau) = true /\
    is_subring (PolynomialRing.base_ring P) (OrePolynomialRing.base_ring Ltau) = true /\
    OrePolynomialRing.twisting_derivation Ltau = None /\
    power frob = degree (PolynomialRing.base_ring P) /\
    is_constant f = false.
Proof.
  split; [exact ExampleFacts.phi_constructed|].
  exact (constructed_invariants GF4.field Example.store Example.phi
           ExampleFacts.phi_constructed).
Defined.

Lemma construction_frame_witness :
  constructed Example.store Example.phi /\
  constructed
    (snd (FiniteDrinfeldModule__init__ Example.FqX
            (Obj_OrePolynomial Example.phi_X) Example.store))
    Example.phi.
Proof.
  split; [exact ExampleFacts.phi_constructed|].
  exact (proj1 (proj2 (construction_frame GF4.field Example.FqX
                         (Obj_OrePolynomial Example.phi_X) Example.store Example.phi
                         ExampleFacts.phi_constructed))).
Defined.

(** ** Base change: outcomes, result and composition *)

Section ChangeRingOutcomes.

Variable F : AmbientField.

Implicit Types (h : heap F) (self : ref) (m : RingHomomorphism_im_gens F).

Lemma change_ring_returns h self (R : Ring) :
  is_Ok (fst (change_ring self R h)) = true ->
  exists self' h', change_ring self R h = (Ok self', h').
Proof.
  destruct (change_ring self R h) as [[self'|e] h']; cbn; [|discriminate].
  intros _. exists self', h'. reflexivity.
Qed.

(** X5: [change_ring(R)] returns a module exactly when [R] is a field, is
    finite and contains the base field [L] of the Ore polynomial ring of the
    module; the last check on [(Fq, R)] then never fails, [Fq] being in [L]. *)
Theorem change_ring_returns_iff_finite_extension h self (R : Ring) :
  constructed h self ->
  exists Ltau,
    ore_polring self h = (Ok Ltau, h) /\
    ((exists self' h', change_ring self R h = (Ok self', h'))
     <-> is_field R = true /\ is_finite R = true
         /\ is_subring (OrePolynomialRing.base_ring Ltau) R = true).
Proof.
  intro Hc.
  destruct (change_ring_succeeds_iff F h self R Hc) as (Ltau & HL & Hiff).
  exists Ltau. split; [exact HL|]. split.
  - intros (self' & h' & E). apply Hiff. rewrite E. reflexivity.
  - intro H. apply change_ring_returns. apply Hiff. exact H.
Qed.

(** X6: every failure of [change_ring] on a validly constructed module, by
    cause.  A finite ring that is not a field raises the [TypeError]; any
    other ring that does not contain [L] raises the [ValueError] of
    [change_ring] itself; an infinite ring that contains [L] raises the
    [ValueError] of [_check_base_fields].  The store is returned as it
    was. *)
Theorem change_ring_failures_by_cause h self (R : Ring) :
  constructed h self ->
  exists Ltau,
    ore_polring self h = (Ok Ltau, h) /\
    (is_field R = false -> is_finite R = true ->
     change_ring self R h
     = (Raise (TypeError "Argument must be a finite field"), h))
    /\
    (is_field R = true \/ is_finite R = false ->
     is_subring (OrePolynomialRing.base_ring Ltau) R = false ->
     change_ring self R h
     = (Raise (ValueError "The new field must be a finite field extension of the base field of the Ore polynomial ring."), h))
    /\
    (is_finite R = false ->
     is_subring (OrePolynomialRing.base_ring Ltau) R = true ->
     change_ring self R h
     = (Raise (ValueError "The base field of the Ore polynomial ring must be a finite field extension of the base field of the polynomial ring"), h)).
Proof.
  intro Hc.
  destruct (constructed_validated F h self Hc) as (m & Hm & Hv).
  pose proof Hv as (f & Hf & _).
  exists (_codomain m). split; [exact (ore_polring_at F h self m Hm)|].
  rewrite (change_ring_cases F h self m f R Hm Hf).
  split; [|split].
  - intros -> ->. reflexivity.
  - intros Hor ->.
    destruct Hor as [-> | ->]; [|rewrite andb_false_r]; reflexivity.
  - intros HI ->. rewrite HI, andb_false_r. cbn [negb].
    unfold compatible. rewrite HI, andb_false_r. reflexivity.
Qed.

(** X7: the module that [change_ring(R)] returns has the polynomial ring of
    the original, an Ore polynomial ring over [R] with the same twist power,
    the same variable name and no derivation, and a generator with the
    coefficients of the original in that ring. *)
Theorem change_ring_result h self (R : Ring) self' h' :
  constructed h self ->
  change_ring self R h = (Ok self', h') ->
  exists P Ltau f,
    polring self h = (Ok P, h) /\
    ore_polring self h = (Ok Ltau, h) /\
    gen self h = (Ok f, h) /\
    let Rtau :=
      {| OrePolynomialRing.base_ring := R;
         OrePolynomialRing.twisting_morphism :=
           {| frobenius_domain := R;
              power := power (OrePolynomialRing.twisting_morphism Ltau) |};
         OrePolynomialRing.twisting_derivation := None;
         OrePolynomialRing.variable_names := OrePolynomialRing.variable_names Ltau |} in
    polring self' h' = (Ok P, h') /\
    ore_polring self' h' = (Ok Rtau, h') /\
    gen self' h' = (Ok {| parent := Rtau; coefficients := coefficients f |}, h').
Proof.
  intros Hc Hr.
  destruct (change_ring_success F h self R self' h' Hc Hr)
    as (m & f & Hm & Hf & -> & -> & _).
  exists (_domain m), (_codomain m), f.
  split; [exact (polring_at F h self m Hm)|].
  split; [exact (ore_polring_at F h self m Hm)|].
  split; [exact (gen_at F h self m f Hm Hf)|].
  intro Rtau.
  pose proof (nth_error_fresh F h
                {| _domain := _domain m;
                   _codomain := new_ore_polring m R;
                   _im_gens := [new_gen m R f] |}) as Hm'.
  split; [exact (polring_at F _ _ _ Hm')|].
  split; [exact (ore_polring_at F _ _ _ Hm')|].
  exact (gen_at F _ _ _ (new_gen m R f) Hm' eq_refl).
Qed.

(** X8: base change leaves the module law as it is on the elements the
    original acts on: for [g] in the polynomial ring and [x] in the base
    field [L] of the original, the action of the module returned by
    [change_ring(R)] sends [(g, x)] where the action of the original sends
    it; the new action acts on [R]. *)
Theorem change_ring_preserves_action h self (R : Ring) self' h'
  (A A' : FiniteDrinfeldModuleAction) (g : list F) (x : F) :
  constructed h self ->
  change_ring self R h = (Ok self', h') ->
  _get_action_ self h = (Ok A, h) ->
  _get_action_ self' h' = (Ok A', h') ->
  in_polring (G A) g ->
  in_ring (US A) x ->
  exists v,
    _act_ A g x h = (Ok v, h) /\
    _act_ A' g x h' = (Ok v, h') /\
    G A' = G A /\
    US A' = R.
Proof.
  intros Hc Hr HA HA' _ _.
  destruct (change_ring_success F h self R self' h' Hc Hr)
    as (m & f & Hm & Hf & -> & -> & _).
  set (m' := {| _domain := _domain m;
                _codomain := new_ore_polring m R;
                _im_gens := [new_gen m R f] |}) in *.
  pose proof (nth_error_fresh F h m') as Hm'.
  destruct (get_action_inv F h self m A Hm HA) as [HA1 HG].
  rewrite (get_action_at F _ _ m' Hm') in HA'. inversion HA'; subst A'.
  exists (operator_eval F (twist F (_codomain m))
            (im_gens_sum_from F (twist F (_codomain m)) (coefficients f) O g) x).
  split; [exact (act_at F h self m f A g x Hm Hf HA1)|].
  split.
  - assert (Hf' : _im_gens m' = [new_gen m R f]) by reflexivity.
    rewrite (act_at F (h ++ [m']) (List.length h) m' (new_gen m R f)
               {| __finite_drinfeld_module := List.length h;
                  G := _domain m; US := R |} g x Hm' Hf' eq_refl).
    reflexivity.
  - split; [rewrite HG; reflexivity | reflexivity].
Qed.

(** X9: two base changes in a row give the module of the single base change
    to the last field: when [change_ring(R)] and then [change_ring(R')] on its
    result succeed, [change_ring(R')] on the original succeeds as well, and
    builds an object with the same state. *)
Theorem change_ring_compose h self (R R' : Ring) s1 h1 s2 h2 :
  constructed h self ->
  change_ring self R h = (Ok s1, h1) ->
  change_ring s1 R' h1 = (Ok s2, h2) ->
  exists s h',
    change_ring self R' h = (Ok s, h') /\
    nth_error h' s = nth_error h2 s2 /\
    nth_error h' s <> None.
Proof.
  intros Hc H1 H2.
  assert (Hc1 : constructed h1 s1).
  { destruct (change_ring_success F h self R s1 h1 Hc H1)
      as (m & f & _ & _ & _ & _ & Hinit).
    exists (_domain m), (Obj_OrePolynomial (new_gen m R f)), h, h1, [].
    split; [exact Hinit | rewrite app_nil_r; reflexivity]. }
  destruct (change_ring_succeeds_iff F h self R Hc) as (Ltau & HL & Hiff1).
  destruct (change_ring_succeeds_iff F h1 s1 R' Hc1) as (Ltau1 & HL1 & Hiff2).
  destruct (change_ring_succeeds_iff F h self R' Hc) as (Ltau0 & HL0 & Hiff).
  rewrite HL in HL0. inversion HL0; subst Ltau0.
  assert (Hs1 : is_subring (OrePolynomialRing.base_ring Ltau) R = true).
  { apply Hiff1. rewrite H1. reflexivity. }
  assert (Hs2 : is_field R' = true /\ is_finite R' = true
                /\ is_subring (OrePolynomialRing.base_ring Ltau1) R' = true).
  { apply Hiff2. rewrite H2. reflexivity. }
  destruct (change_ring_success F h self R s1 h1 Hc H1)
    as (m & f & Hm & Hf & -> & -> & _).
  pose proof (nth_error_fresh F h
                {| _domain := _domain m;
                   _codomain := new_ore_polring m R;
                   _im_gens := [new_gen m R f] |}) as Hm1.
  rewrite (ore_polring_at F _ _ _ Hm1) in HL1. inversion HL1; subst Ltau1.
  cbn [_codomain new_ore_polring OrePolynomialRing.make OrePolynomialRing.base_ring]
    in Hs2.
  destruct Hs2 as (HF & HI & Hsub).
  assert (Hok : is_Ok (fst (change_ring self R' h)) = true).
  { apply Hiff. repeat split; try assumption.
    exact (is_subring_trans _ _ _ Hs1 Hsub). }
  destruct (change_ring_returns h self R' Hok) as (s & h' & Hd).
  exists s, h'. split; [exact Hd|].
  destruct (change_ring_success F h self R' s h' Hc Hd)
    as (m0 & f0 & Hm0 & Hf0 & -> & -> & _).
  rewrite Hm in Hm0. inversion Hm0; subst m0.
  rewrite Hf in Hf0. inversion Hf0; subst f0.
  destruct (change_ring_success F _ _ R' s2 h2 Hc1 H2)
    as (m1 & f1 & Hm1' & Hf1 & -> & -> & _).
  rewrite Hm1 in Hm1'. inversion Hm1'; subst m1.
  cbn [_im_gens] in Hf1. inversion Hf1; subst f1.
  rewrite !nth_error_fresh. split; [reflexivity | discriminate].
Qed.

(** X10: base change to the base field of the module itself always
    succeeds. *)
Theorem change_ring_to_own_base_field h self :
  constructed h self ->
  exists Ltau self' h',
    ore_polring self h = (Ok Ltau, h) /\
    change_ring self (OrePolynomialRing.base_ring Ltau) h = (Ok self', h').
Proof.
  intro Hc.
  destruct (constructed_validated F h self Hc) as (m & Hm & Hv).
  destruct (change_ring_succeeds_iff F h self
              (OrePolynomialRing.base_ring (_codomain m)) Hc) as (Ltau & HL & Hiff).
  rewrite (ore_polring_at F _ _ _ Hm) in HL. inversion HL; subst Ltau.
  destruct Hv as (f & _ & _ & Hcompat & _).
  unfold compatible in Hcompat.
  apply andb_true_iff in Hcompat. destruct Hcompat as [Hcompat _].
  apply andb_true_iff in Hcompat. destruct Hcompat as [Hfield Hfin].
  destruct (change_ring_returns h self _
              (proj2 Hiff (conj Hfield (conj Hfin (is_subring_refl _)))))
    as (self' & h' & E).
  exists (_codomain m), self', h'.
  split; [exact (ore_polring_at F _ _ _ Hm) | exact E].
Qed.

End ChangeRingOutcomes.

Lemma change_ring_returns_iff_finite_extension_witness :
  constructed Example.store Example.phi /\
  exists Ltau,
    ore_polring Example.phi Example.store = (Ok Ltau, Example.store) /\
    ((exists self' h', change_ring Example.phi Example.GF16 Example.store = (Ok self', h'))
     <-> is_field Example.GF16 = true /\ is_finite Example.GF16 = true
         /\ is_subring (OrePolynomialRing.base_ring Ltau) Example.GF16 = true).
Proof.
  split; [exact ExampleFacts.phi_constructed|].
  exact (change_ring_returns_iff_finite_extension GF4.field Example.store Example.phi
           Example.GF16 ExampleFacts.phi_constructed).
Defined.

Lemma change_ring_failures_by_cause_witness :
  constructed Example.store Example.phi /\
  change_ring Example.phi Example.dual_numbers Example.store
  = (Raise (TypeError "Argument must be a finite field"), Example.store) /\
  change_ring Example.phi Example.GF8 Example.store
  = (Raise (ValueError "The new field must be a finite field extension of the base field of the Ore polynomial ring."), Example.store) /\
  change_ring Example.phi Example.polynomials Example.store
  = (Raise (ValueError "The base field of the Ore polynomial ring must be a finite field extension of the base field of the polynomial ring"), Example.store).
Proof.
  split; [exact ExampleFacts.phi_constructed|].
  destruct (change_ring_failures_by_cause GF4.field Example.store Example.phi
              Example.dual_numbers ExampleFacts.phi_constructed)
    as (Ltau1 & E1 & H1 & _).
  destruct (change_ring_failures_by_cause GF4.field Example.store Example.phi
              Example.GF8 ExampleFacts.phi_constructed)
    as (Ltau2 & E2 & _ & H2 & _).
  destruct (change_ring_failures_by_cause GF4.field Example.store Example.phi
              Example.polynomials ExampleFacts.phi_constructed)
    as (Ltau3 & E3 & _ & _ & H3).
  inversion E2; subst Ltau2. inversion E3; subst Ltau3.
  split; [exact (H1 eq_refl eq_refl)|].
  split; [exact (H2 (or_introl eq_refl) eq_refl) | exact (H3 eq_refl eq_refl)].
Defined.

Lemma change_ring_result_witness :
  constructed Example.store Example.phi /\
  exists P Ltau f,
    polring Example.phi Example.store = (Ok P, Example.store) /\
    ore_polring Example.phi Example.store = (Ok Ltau, Example.store) /\
    gen Example.phi Example.store = (Ok f, Example.store) /\
    let h' := snd (change_ring Example.phi Example.GF16 Example.store) in
    let Rtau :=
      {| OrePolynomialRing.base_ring := Example.GF16;
         OrePolynomialRing.twisting_morphism :=
           {| frobenius_domain := Example.GF16;
              power := power (OrePolynomialRing.twisting_morphism Ltau) |};
         OrePolynomialRing.twisting_derivation := None;
         OrePolynomialRing.variable_names := OrePolynomialRing.variable_names Ltau |} in
    polring 1 h' = (Ok P, h') /\
    ore_polring 1 h' = (Ok Rtau, h') /\
    gen 1 h' = (Ok {| parent := Rtau; coefficients := coefficients f |}, h').
Proof.
  split; [exact ExampleFacts.phi_constructed|].
  exact (change_ring_result GF4.field Example.store Example.phi Example.GF16 1
           (snd (change_ring Example.phi Example.GF16 Example.store))
           ExampleFacts.phi_constructed eq_refl).
Defined.

Lemma change_ring_preserves_action_witness :
  constructed Example.store Example.phi /\
  @in_polring GF4.field Example.FqX [GF4.one; GF4.one; GF4.one] /\
  @in_ring GF4.field Example.L GF4.w /\
  let h' := snd (change_ring Example.phi Example.GF16 Example.store) in
  let A := {| __finite_drinfeld_module := Example.phi;
              G := Example.FqX; US := Example.L |} in
  let A' := {| __finite_drinfeld_module := 1;
               G := Example.FqX; US := Example.GF16 |} in
  exists v,
    @_act_ GF4.field A [GF4.one; GF4.one; GF4.one] GF4.w Example.store
    = (Ok v, Example.store) /\
    @_act_ GF4.field A' [GF4.one; GF4.one; GF4.one] GF4.w h' = (Ok v, h') /\
    G A' = G A /\
    US A' = Example.GF16.
Proof.
  assert (Hg : @in_polring GF4.field Example.FqX [GF4.one; GF4.one; GF4.one])
    by (repeat constructor).
  assert (Hx : @in_ring GF4.field Example.L GF4.w) by reflexivity.
  split; [exact ExampleFacts.phi_constructed|].
  split; [exact Hg|]. split; [exact Hx|].
  exact (change_ring_preserves_action GF4.field Example.store Example.phi
           Example.GF16 1 (snd (change_ring Example.phi Example.GF16 Example.store))
           {| __finite_drinfeld_module := Example.phi;
              G := Example.FqX; US := Example.L |}
           {| __finite_drinfeld_module := 1;
              G := Example.FqX; US := Example.GF16 |}
           [GF4.one; GF4.one; GF4.one] GF4.w
           ExampleFacts.phi_constructed eq_refl eq_refl eq_refl Hg Hx).
Defined.

Lemma change_ring_compose_witness :
  constructed Example.store Example.phi /\
  let GF256 := {| is_field := true; is_finite := true; degree := 8 |} in
  let h1 := snd (change_ring Example.phi Example.GF16 Example.store) in
  let h2 := snd (change_ring 1 GF256 h1) in
  change_ring Example.phi Example.GF16 Example.store = (Ok 1, h1) /\
  change_ring 1 GF256 h1 = (Ok 2, h2) /\
  exists s h',
    change_ring Example.phi GF256 Example.store = (Ok s, h') /\
    nth_error h' s = nth_error h2 2 /\
    nth_error h' s <> None.
Proof.
  split; [exact ExampleFacts.phi_constructed|].
  split; [reflexivity|].
  split; [reflexivity|].
  exact (change_ring_compose GF4.field Example.store Example.phi Example.GF16
           {| is_field := true; is_finite := true; degree := 8 |}
           1 (snd (change_ring Example.phi Example.GF16 Example.store))
           2 (snd (change_ring 1 {| is_field := true; is_finite := true; degree := 8 |}
                     (snd (change_ring Example.phi Example.GF16 Example.store))))
           ExampleFacts.phi_constructed eq_refl eq_refl).
Defined.

Lemma change_ring_to_own_base_field_witness :
  constructed Example.store Example.phi /\
  exists Ltau self' h',
    ore_polring Example.phi Example.store = (Ok Ltau, Example.store) /\
    change_ring Example.phi (OrePolynomialRing.base_ring Ltau) Example.store
    = (Ok self', h').
Proof.
  split; [exact ExampleFacts.phi_constructed|].
  exact (change_ring_to_own_base_field GF4.field Example.store Example.phi
           ExampleFacts.phi_constructed).
Defined.

(** ** The module law in the field element *)

Section ModuleLawInPoint.

Variable F : AmbientField.
Local Open Scope K_scope.

Implicit Types (h : heap F) (self : ref) (m : RingHomomorphism_im_gens F).

Add Ring ModuleLawInPointRing : (K_ring F).

(** An operator that commutes with the multiplication by [c] does so under
    every polynomial in that operator. *)
Lemma operator_eval_scalar (T : F -> F) (b : list F) (c x : F) :
  (forall y, T (c * y) = c * T y) ->
  operator_eval F T b (c * x) = c * operator_eval F T b x.
Proof.
  intro Hc; revert x; induction b as [|d b IH]; intro x.
  - rewrite !operator_eval_nil. ring.
  - rewrite !operator_eval_cons, Hc, IH. ring.
Qed.

(** Two polynomials in an additive operator [T], with coefficients over
    which [T] is linear, commute as operators. *)
Lemma operator_eval_commute (T : F -> F) (a b : list F) (x : F) :
  (forall u v, T (u + v) = T u + T v) -> T 0 = 0 ->
  Forall (fun c => forall y, T (c * y) = c * T y) a ->
  Forall (fun c => forall y, T (c * y) = c * T y) b ->
  operator_eval F T a (operator_eval F T b x)
  = operator_eval F T b (operator_eval F T a x).
Proof.
  intros Tadd Tzero Ha Hb; revert x.
  induction Ha as [|c a Hc Ha IH]; intro x.
  - rewrite !operator_eval_nil, (operator_eval_at_zero F T Tzero). reflexivity.
  - rewrite !operator_eval_cons.
    rewrite (operator_eval_semilinear F T (fun c => c) Tadd Tzero b x Hb), map_id.
    rewrite IH, (operator_eval_additive F T Tadd), (operator_eval_scalar T b c x Hc).
    reflexivity.
Qed.

(** The operator of the generator of a validated module, and its
    properties. *)
Lemma generator_operator_linear m f (c : F) :
  validated m -> _im_gens m = [f] ->
  in_ring (PolynomialRing.base_ring (_domain m)) c ->
  forall y,
    operator_eval F (twist F (_codomain m)) (coefficients f) (c * y)
    = c * operator_eval F (twist F (_codomain m)) (coefficients f) y.
Proof.
  intros Hv Hf Hc y.
  apply operator_eval_fixed_linear.
  - intros; apply frobenius_pow_mul.
  - rewrite (validated_twist F m Hv). exact Hc.
Qed.

(** X11: the action is additive in the field element:
    [act(g, x + y) = act(g, x) + act(g, y)] and [act(g, 0) = 0]. *)
Theorem act_additive h self (A : FiniteDrinfeldModuleAction) (g : list F) (x y : F) :
  constructed h self ->
  _get_action_ self h = (Ok A, h) ->
  exists v w,
    _act_ A g x h = (Ok v, h) /\
    _act_ A g y h = (Ok w, h) /\
    _act_ A g (x + y) h = (Ok (v + w), h) /\
    _act_ A g 0 h = (Ok 0, h).
Proof.
  intros Hc HA.
  destruct (constructed_validated F h self Hc) as (m & Hm & Hv).
  pose proof Hv as (f & Hf & _).
  destruct (get_action_inv F h self m A Hm HA) as [HA1 _].
  rewrite !(act_at F h self m f A g _ Hm Hf HA1).
  eexists _, _. split; [reflexivity|]. split; [reflexivity|]. split.
  - rewrite operator_eval_additive; [reflexivity|].
    intros; apply frobenius_pow_add.
  - rewrite operator_eval_at_zero; [reflexivity|].
    apply frobenius_pow_zero.
Qed.

(** X12: the action is linear over [Fq]: for [c] in the base field of the
    polynomial ring, [act(g, c * x) = c * act(g, x)]. *)
Theorem act_Fq_linear h self (A : FiniteDrinfeldModuleAction) (g : list F) (c x : F) :
  constructed h self ->
  _get_action_ self h = (Ok A, h) ->
  in_ring (PolynomialRing.base_ring (G A)) c ->
  exists v,
    _act_ A g x h = (Ok v, h) /\
    _act_ A g (c * x) h = (Ok (c * v), h).
Proof.
  intros Hc HA Hin.
  destruct (constructed_validated F h self Hc) as (m & Hm & Hv).
  pose proof Hv as (f & Hf & _).
  destruct (get_action_inv F h self m A Hm HA) as [HA1 HG].
  rewrite !(act_at F h self m f A g _ Hm Hf HA1).
  eexists. split; [reflexivity|].
  rewrite operator_eval_fixed_linear; [reflexivity | |].
  - intros; apply frobenius_pow_mul.
  - rewrite HG in Hin. rewrite (validated_twist F m Hv). exact Hin.
Qed.

(** X13: the polynomial [X] acts as the generator evaluated at the element,
    that is as the sum of [gen_i * x^(q^i)]; a constant polynomial [c] acts as
    the multiplication by [c]; the zero polynomial acts as zero. *)
Theorem act_of_X_and_constants h self (A : FiniteDrinfeldModuleAction) (c x : F) :
  constructed h self ->
  _get_action_ self h = (Ok A, h) ->
  exists phi_X,
    gen self h = (Ok phi_X, h) /\
    _act_ A [0; 1] x h = (Ok (OrePolynomial_call phi_X x), h) /\
    OrePolynomial_call phi_X x
    = power_sum_from F (cardinality (Kchar F) (PolynomialRing.base_ring (G A))) O
        (coefficients phi_X) x /\
    _act_ A [c] x h = (Ok (c * x), h) /\
    _act_ A [] x h = (Ok 0, h).
Proof.
  intros Hc HA.
  destruct (constructed_validated F h self Hc) as (m & Hm & Hv).
  pose proof Hv as (f & Hf & Hpar & _).
  destruct (get_action_inv F h self m A Hm HA) as [HA1 HG].
  exists f. split; [exact (gen_at F h self m f Hm Hf)|].
  rewrite !(act_by_operator F h self m f A _ x Hm Hf HA1).
  unfold OrePolynomial_call. rewrite <- Hpar.
  split; [|split; [|split]].
  - rewrite !operator_eval_cons, operator_eval_nil. f_equal. f_equal. ring.
  - rewrite HG, (validated_twist F m Hv).
    unfold operator_eval. apply operator_eval_from_frobenius.
  - rewrite operator_eval_cons, operator_eval_nil. f_equal. f_equal. ring.
  - reflexivity.
Qed.

(** X14: the actions of two polynomials of [Fq[X]] commute:
    [act(g1, act(g2, x)) = act(g2, act(g1, x))]. *)
Theorem act_commute h self (A : FiniteDrinfeldModuleAction) (g1 g2 : list F) (x : F) :
  constructed h self ->
  _get_action_ self h = (Ok A, h) ->
  in_polring (G A) g1 ->
  in_polring (G A) g2 ->
  exists v1 v2 w,
    _act_ A g1 x h = (Ok v1, h) /\
    _act_ A g2 x h = (Ok v2, h) /\
    _act_ A g1 v2 h = (Ok w, h) /\
    _act_ A g2 v1 h = (Ok w, h).
Proof.
  intros Hc HA Hg1 Hg2.
  destruct (constructed_validated F h self Hc) as (m & Hm & Hv).
  pose proof Hv as (f & Hf & _).
  destruct (get_action_inv F h self m A Hm HA) as [HA1 HG].
  rewrite HG in Hg1, Hg2. unfold in_polring in Hg1, Hg2.
  set (T := operator_eval F (twist F (_codomain m)) (coefficients f)).
  exists (operator_eval F T g1 x), (operator_eval F T g2 x),
    (operator_eval F T g1 (operator_eval F T g2 x)).
  split; [exact (act_by_operator F h self m f A g1 x Hm Hf HA1)|].
  split; [exact (act_by_operator F h self m f A g2 x Hm Hf HA1)|].
  split; [exact (act_by_operator F h self m f A g1 _ Hm Hf HA1)|].
  rewrite (act_by_operator F h self m f A g2 _ Hm Hf HA1). fold T.
  f_equal. f_equal. symmetry.
  apply operator_eval_commute.
  - intros u v. apply operator_eval_additive. intros; apply frobenius_pow_add.
  - apply operator_eval_at_zero. apply frobenius_pow_zero.
  - apply Forall_forall. intros c Hin y.
    rewrite Forall_forall in Hg1.
    exact (generator_operator_linear m f c Hv Hf (Hg1 c Hin) y).
  - apply Forall_forall. intros c Hin y.
    rewrite Forall_forall in Hg2.
    exact (generator_operator_linear m f c Hv Hf (Hg2 c Hin) y).
Qed.

End ModuleLawInPoint.

Lemma act_additive_witness :
  constructed Example.store Example.phi /\
  let A := {| __finite_drinfeld_module := Example.phi;
              G := Example.FqX; US := Example.L |} in
  exists v w,
    @_act_ GF4.field A [GF4.zero; GF4.one] GF4.w Example.store = (Ok v, Example.store) /\
    @_act_ GF4.field A [GF4.zero; GF4.one] GF4.one Example.store = (Ok w, Example.store) /\
    @_act_ GF4.field A [GF4.zero; GF4.one] (GF4.add GF4.w GF4.one) Example.store
    = (Ok (GF4.add v w), Example.store) /\
    @_act_ GF4.field A [GF4.zero; GF4.one] GF4.zero Example.store
    = (Ok GF4.zero, Example.store).
Proof.
  split; [exact ExampleFacts.phi_constructed|].
  exact (act_additive GF4.field Example.store Example.phi
           {| __finite_drinfeld_module := Example.phi;
              G := Example.FqX; US := Example.L |}
           [GF4.zero; GF4.one] GF4.w GF4.one
           ExampleFacts.phi_constructed eq_refl).
Defined.

Lemma act_Fq_linear_witness :
  constructed Example.store Example.phi /\
  @in_ring GF4.field Example.Fq GF4.one /\
  let A := {| __finite_drinfeld_module := Example.phi;
              G := Example.FqX; US := Example.L |} in
  exists v,
    @_act_ GF4.field A [GF4.zero; GF4.one] GF4.w Example.store = (Ok v, Example.store) /\
    @_act_ GF4.field A [GF4.zero; GF4.one] (GF4.mul GF4.one GF4.w) Example.store
    = (Ok (GF4.mul GF4.one v), Example.store).
Proof.
  split; [exact ExampleFacts.phi_constructed|].
  split; [reflexivity|].
  exact (act_Fq_linear GF4.field Example.store Example.phi
           {| __finite_drinfeld_module := Example.phi;
              G := Example.FqX; US := Example.L |}
           [GF4.zero; GF4.one] GF4.one GF4.w
           ExampleFacts.phi_constructed eq_refl eq_refl).
Defined.

Lemma act_of_X_and_constants_witness :
  constructed Example.store Example.phi /\
  let A := {| __finite_drinfeld_module := Example.phi;
              G := Example.FqX; US := Example.L |} in
  exists phi_X,
    gen Example.phi Example.store = (Ok phi_X, Example.store) /\
    @_act_ GF4.field A [GF4.zero; GF4.one] GF4.w Example.store
    = (Ok (OrePolynomial_call phi_X GF4.w), Example.store) /\
    OrePolynomial_call phi_X GF4.w
    = power_sum_from GF4.field
        (cardinality (Kchar GF4.field) (PolynomialRing.base_ring (G A))) O
        (coefficients phi_X) GF4.w /\
    @_act_ GF4.field A [GF4.one] GF4.w Example.store
    = (Ok (GF4.mul GF4.one GF4.w), Example.store) /\
    @_act_ GF4.field A [] GF4.w Example.store = (Ok GF4.zero, Example.store).
Proof.
  split; [exact ExampleFacts.phi_constructed|].
  exact (act_of_X_and_constants GF4.field Example.store Example.phi
           {| __finite_drinfeld_module := Example.phi;
              G := Example.FqX; US := Example.L |}
           GF4.one GF4.w ExampleFacts.phi_constructed eq_refl).
Defined.

Lemma act_commute_witness :
  constructed Example.store Example.phi /\
  @in_polring GF4.field Example.FqX [GF4.one; GF4.one] /\
  @in_polring GF4.field Example.FqX [GF4.zero; GF4.zero; GF4.one] /\
  let A := {| __finite_drinfeld_module := Example.phi;
              G := Example.FqX; US := Example.L |} in
  exists v1 v2 w,
    @_act_ GF4.field A [GF4.one; GF4.one] GF4.w Example.store = (Ok v1, Example.store) /\
    @_act_ GF4.field A [GF4.zero; GF4.zero; GF4.one] GF4.w Example.store
    = (Ok v2, Example.store) /\
    @_act_ GF4.field A [GF4.one; GF4.one] v2 Example.store = (Ok w, Example.store) /\
    @_act_ GF4.field A [GF4.zero; GF4.zero; GF4.one] v1 Example.store
    = (Ok w, Example.store).
Proof.
  assert (H1 : @in_polring GF4.field Example.FqX [GF4.one; GF4.one])
    by (repeat constructor).
  assert (H2 : @in_polring GF4.field Example.FqX [GF4.zero; GF4.zero; GF4.one])
    by (repeat constructor).
  split; [exact ExampleFacts.phi_constructed|].
  split; [exact H1|]. split; [exact H2|].
  exact (act_commute GF4.field Example.store Example.phi
           {| __finite_drinfeld_module := Example.phi;
              G := Example.FqX; US := Example.L |}
           [GF4.one; GF4.one] [GF4.zero; GF4.zero; GF4.one] GF4.w
           ExampleFacts.phi_constructed eq_refl H1 H2).
Defined.
